(** * ETL_cars: the transform and load stages of the car-listing pipeline

    A shallow embedding of [etl_cars.py] (extract_excel, _safe_get,
    _normalize_columns, transform_cars, _convert_row_for_db, load_cars,
    run_etl, _sheet_arg) and [db_cars.py] (the fact_cars schema, UPSERT_SQL,
    upsert_cars), together with the part of Python, numpy, pandas and
    sqlite3 those functions rest on.

    - Python [str] values are sequences of Unicode code points.
    - Python/numpy floats are IEEE binary64 numbers (the kernel's [float]).
    - A pandas nullable column ("string", "Int64") is a list of options; a
      float64 column is a list of floats in which NaN is the missing value.
    - Exceptions are the [Raise] results of an error monad.
    - The SQLite table is the list of its rows in rowid order; a connection
      threads the committed table and the open transaction. *)

From Stdlib Require Import ZArith Bool Lia String Ascii Floats DecimalString Sorted.
From stdpp Require Import base numbers list option.

(** ** Python text *)

Definition str := list N.

(** An ASCII literal as a [str]. *)
Definition lit (s : string) : str := N_of_ascii <$> list_ascii_of_string s.

(** [str(z)] for an integer. *)
Definition str_of_int (z : Z) : str := lit (NilZero.string_of_int (Z.to_int z)).

(** The characters [str.strip()] removes: [ch.isspace()]. *)
Definition isspace (c : N) : bool :=
  ((9 <=? c) && (c <=? 13) || (28 <=? c) && (c <=? 32) || (c =? 133) || (c =? 160)
   || (c =? 5760) || (8192 <=? c) && (c <=? 8202) || (c =? 8232) || (c =? 8233)
   || (c =? 8239) || (c =? 8287) || (c =? 12288))%N.

Fixpoint lstrip (s : str) : str :=
  match s with
  | c :: s' => if isspace c then lstrip s' else s
  | [] => []
  end.

Definition rstrip (s : str) : str := reverse (lstrip (reverse s)).

Definition strip (s : str) : str := rstrip (lstrip s).

(** ** Floats *)

(** [float(z)]: the integer rounded to the nearest binary64 number. *)
Definition Z2F (z : Z) : float := SF2Prim (binary_normalize prec emax z 0 false).

(** The integer a float denotes, when it denotes one. *)
Definition F2Z_exact (f : float) : option Z :=
  match Prim2SF f with
  | S754_zero _ => Some 0%Z
  | S754_finite s m e =>
      let v := if s then Z.neg m else Z.pos m in
      if (0 <=? e)%Z then Some (v * 2 ^ e)%Z
      else if (Z.pos m mod 2 ^ (- e) =? 0)%Z then Some (v / 2 ^ (- e))%Z
      else None
  | _ => None
  end.

(** [int(f)]: truncation towards zero; undefined on infinities and NaN. *)
Definition F2Z_trunc (f : float) : option Z :=
  match Prim2SF f with
  | S754_zero _ => Some 0%Z
  | S754_finite s m e =>
      let a := if (0 <=? e)%Z then (Z.pos m * 2 ^ e)%Z else (Z.pos m / 2 ^ (- e))%Z in
      Some (if s then - a else a)%Z
  | _ => None
  end.

Definition two52 : float := Eval compute in Z2F (2 ^ 52).

(** C's [rint] in the default rounding mode (to nearest, ties to even). *)
Definition rint (x : float) : float :=
  let a := abs x in
  let r := if (a <? two52)%float then ((a + two52) - two52)%float else a in
  if get_sign x then (- r)%float else r.

(** [numpy.round(x, 2)]: scale by [10**2], [rint], scale back. *)
Definition around2 (x : float) : float := (rint (x * 100) / 100)%float.

(** ** Exceptions *)

Inductive exn : Set :=
  | TypeError | ValueError | OverflowError | IndexError | IntegrityError.

Inductive result (A : Type) : Type :=
  | Ok (a : A)
  | Raise (e : exn).
Arguments Ok {A} a.
Arguments Raise {A} e.

Global Instance result_ret : MRet result := λ A, Ok.
Global Instance result_bind : MBind result := λ A B f m,
  match m with Ok a => f a | Raise e => Raise e end.
Global Instance result_fmap : FMap result := λ A B f m,
  match m with Ok a => Ok (f a) | Raise e => Raise e end.

Fixpoint traverse {A B} (f : A → result B) (l : list A) : result (list B) :=
  match l with
  | [] => Ok []
  | x :: l' => y ← f x; ys ← traverse f l'; Ok (y :: ys)
  end.

Fixpoint foldM {A B} (f : B → A → result B) (b : B) (l : list A) : result B :=
  match l with
  | [] => Ok b
  | x :: l' => b' ← f b x; foldM f b' l'
  end.

(** ** The raw table (extractor output) *)

(** A spreadsheet cell as [pd.read_excel] delivers it: empty, a number or
    text. *)
Inductive Cell : Type :=
  | CNull
  | CInt (z : Z)
  | CFloat (f : float)
  | CText (s : str).

(** A sheet: its header row and its body rows.  A body row shorter than the
    header is padded with missing cells. *)
Record RawFrame := { header : list str; body : list (list Cell) }.

Definition len (df : RawFrame) : nat := length (body df).

Definition cell (row : list Cell) (j : nat) : Cell := default CNull (row !! j).

(** A frame with its index labels. *)
Abbreviation Frame A := (list (nat * A)).

(** ** pandas operations used by the transform *)

(** [s.astype("string")] on one value. *)
Definition astype_string (float_repr : float → str) (c : Cell) : option str :=
  match c with
  | CNull => None
  | CInt z => Some (str_of_int z)
  | CFloat f => if is_nan f then None else Some (float_repr f)
  | CText s => Some s
  end.

(** [s.replace({"": pd.NA})] on one value. *)
Definition replace_empty (s : option str) : option str :=
  match s with
  | Some [] => None
  | _ => s
  end.

Inductive Num : Type :=
  | NInt (z : Z)
  | NFloat (f : float).

Definition in_int64 (z : Z) : bool := ((- 2 ^ 63 <=? z) && (z <? 2 ^ 63))%Z.

(** [pd.to_numeric(s, errors="coerce")] on one value: what cannot be read as
    a number is NaN. *)
Definition to_numeric_cell (parse_number : str → option Num) (c : Cell) : Num :=
  match c with
  | CNull => NFloat nan
  | CInt z => NInt z
  | CFloat f => NFloat f
  | CText s => default (NFloat nan) (parse_number s)
  end.

Definition Num_int64 (n : Num) : option Z :=
  match n with
  | NInt z => if in_int64 z then Some z else None
  | NFloat _ => None
  end.

Definition Num_float (n : Num) : float :=
  match n with
  | NInt z => Z2F z
  | NFloat f => f
  end.

(** A numeric column is an int64 array when every value is an integer, and
    a float64 array otherwise. *)
Inductive NumCol : Type :=
  | Int64Col (zs : list Z)
  | Float64Col (fs : list float).

(** An integer cell that Python cannot turn into a float ("int too large
    to convert to float"). *)
Definition int_too_large (c : Cell) : bool :=
  match c with
  | CInt z => is_infinity (Z2F z)
  | _ => false
  end.

(** [pd.to_numeric(s, errors="coerce")].  Every integer cell is also stored
    as a float on the way, and the OverflowError of an integer beyond the
    binary64 range is not among the errors that "coerce" covers. *)
Definition to_numeric (parse_number : str → option Num) (s : list Cell) : result NumCol :=
  if existsb int_too_large s then Raise OverflowError
  else
    let ns := to_numeric_cell parse_number <$> s in
    Ok match mapM Num_int64 ns with
       | Some zs => Int64Col zs
       | None => Float64Col (Num_float <$> ns)
       end.

(** The largest value of a float64 array, NaN apart: [values[np.nanargmax
    (values)]]. *)
Definition nanmax (fs : list float) : option float :=
  foldl (λ acc f,
           if is_nan f then acc
           else match acc with
                | Some a => if (a <? f)%float then Some f else acc
                | None => Some f
                end)
        None fs.

(** One value of the cast of a float64 array to int64 when the cast is
    compared with the array ("cannot safely cast non-equivalent float64 to
    int64"): NaN is the missing value, an integral float in range is that
    integer, anything else differs from its cast. *)
Definition equivalent_Int64 (f : float) : result (option Z) :=
  if is_nan f then Ok None
  else match F2Z_exact f with
       | Some z => if in_int64 z then Ok (Some z) else Raise TypeError
       | None => Raise TypeError
       end.

(** One value of the cast of an object array to int64: [int(f)], as a C
    long.  A masked value has been replaced by 1. *)
Definition object_to_int64 (f : float) : result Z :=
  if is_nan f then Ok 1%Z
  else match F2Z_trunc f with
       | Some z => if in_int64 z then Ok z else Raise OverflowError
       | None => Raise OverflowError
       end.

(** [s.astype("Int64")].  An int64 array is taken as it is.  Of a float64
    array pandas first looks at the largest value m: [int(m)] raises
    OverflowError when m is an infinity; when m has a fraction the array is
    cast as an array of objects, value by value with [int], and then refused
    because the cast differs from it; otherwise the array is cast as a
    whole and refused unless every value is equivalent to its cast. *)
Definition astype_Int64 (c : NumCol) : result (list (option Z)) :=
  match c with
  | Int64Col zs => Ok (Some <$> zs)
  | Float64Col fs =>
      match nanmax fs with
      | None => Ok ((λ _, None) <$> fs)
      | Some m =>
          if is_infinity m then Raise OverflowError
          else match F2Z_exact m with
               | Some _ => traverse equivalent_Int64 fs
               | None => _ ← traverse object_to_int64 fs; Raise TypeError
               end
      end
  end.

(** [s.astype("float")] of an Int64 value. *)
Definition astype_float (z : option Z) : float :=
  match z with
  | Some z => Z2F z
  | None => nan
  end.

(** [df.drop_duplicates(subset=[key], keep="last")]: a row goes when a later
    row has its key. *)
Fixpoint drop_duplicates_last {A K} `{EqDecision K} (key : A → K) (l : list A) : list A :=
  match l with
  | [] => []
  | x :: l' =>
      if decide (key x ∈ key <$> l') then drop_duplicates_last key l'
      else x :: drop_duplicates_last key l'
  end.

(** [df.reset_index(drop=True)]. *)
Definition reset_index {A} (df : Frame A) : Frame A := imap (λ i r, (i, r.2)) df.

(** ** etl_cars.py: transform *)

(** The canonical column names. *)
Inductive Field : Set :=
  | Furl | Fregnr | Fmodel_year | Fprice_sek | Fodometer_km | Ffuel | Fbody_type
  | Fhorsepower.

Global Instance Field_eq_dec : EqDecision Field.
Proof. solve_decision. Defined.

(** Spreadsheet header -> canonical name.  The Swedish headers are
    "Modellår", "Mätarställning (km)", "Bränsle" and "Hästkrafter"
    (å is U+00E5, ä is U+00E4). *)
Definition COLUMN_MAP : list (str * Field) :=
  [ (lit "Url", Furl);
    (lit "Registreringsnummer", Fregnr);
    (lit "Modell" ++ [229%N] ++ lit "r", Fmodel_year);
    (lit "Pris (kr)", Fprice_sek);
    (lit "M" ++ [228%N] ++ lit "tarst" ++ [228%N] ++ lit "llning (km)", Fodometer_km);
    (lit "Br" ++ [228%N] ++ lit "nsle", Ffuel);
    (lit "Biltyp", Fbody_type);
    (lit "H" ++ [228%N] ++ lit "stkrafter", Fhorsepower) ].

(** The columns converted to numbers.  The source iterates a set, in no
    fixed order; the order shows in nothing but the exception that is
    raised when the conversions of two columns fail with different ones. *)
Definition _NUMERIC_COLS : list Field :=
  [Fmodel_year; Fprice_sek; Fodometer_km; Fhorsepower].

(** A row of the normalized table: text columns of dtype "string", number
    columns of dtype "Int64". *)
Record Norm := {
  url : option str;
  regnr : option str;
  model_year : option Z;
  price_sek : option Z;
  odometer_km : option Z;
  fuel : option str;
  body_type : option str;
  horsepower : option Z
}.

(** A row of the transformed table: the normalized columns and the derived
    float64 column. *)
Record Car := { norm :> Norm; price_per_1000km : float }.

(** [df[col]] if the column exists, else a column of [pd.NA]. *)
Definition _safe_get (df : RawFrame) (col : str) : list Cell :=
  match list_find (λ h, h = col) (header df) with
  | Some (j, _) => (λ row, cell row j) <$> body df
  | None => replicate (len df) CNull
  end.

(** [out[dest] = s]. *)
Definition assign {A} (out : Field → A) (dest : Field) (s : A) : Field → A :=
  λ c, if decide (c = dest) then s else out c.

(** The value of a nullable column at a label of the index. *)
Definition at_label {A} (s : list (option A)) (i : nat) : option A := mjoin (s !! i).

Section transform.
(** How pandas reads a numeric string, and Python's [str(f)] of a float. *)
Variable parse_number : str → option Num.
Variable float_repr : float → str.

Definition _normalize_columns (df : RawFrame) : result (Frame Norm) :=
  (* out = pd.DataFrame(index=df.index)
     for src, dest in COLUMN_MAP.items(): out[dest] = _safe_get(df, src) *)
  let out :=
    foldl (λ out '(src, dest), assign out dest (_safe_get df src)) (λ _, []) COLUMN_MAP in
  (* for s in ["url", "regnr", "fuel", "body_type"]:
       out[s] = out[s].astype("string").str.strip().replace({"": pd.NA}) *)
  let text :=
    foldl (λ text s,
             assign text s
               (replace_empty <$> (fmap strip <$> (astype_string float_repr <$> out s))))
          (λ _, []) [Furl; Fregnr; Ffuel; Fbody_type] in
  (* for ncol in _NUMERIC_COLS:
       out[ncol] = pd.to_numeric(out[ncol], errors="coerce")
       out[ncol] = out[ncol].astype("Int64") *)
  number ← foldM (λ number ncol,
                    s ← to_numeric parse_number (out ncol);
                    s ← astype_Int64 s;
                    Ok (assign number ncol s))
                 (λ _, []) _NUMERIC_COLS;
  Ok ((λ i, (i, {| url := at_label (text Furl) i;
                   regnr := at_label (text Fregnr) i;
                   model_year := at_label (number Fmodel_year) i;
                   price_sek := at_label (number Fprice_sek) i;
                   odometer_km := at_label (number Fodometer_km) i;
                   fuel := at_label (text Ffuel) i;
                   body_type := at_label (text Fbody_type) i;
                   horsepower := at_label (number Fhorsepower) i |})) <$> seq 0 (len df)).

(** Lines 114-123 of transform_cars: the derived column. *)
Definition price_per_1000km_column (out : Frame Norm) : list float :=
  let price := astype_float <$> (price_sek <$> out.*2) in
  let odo := astype_float <$> (odometer_km <$> out.*2) in
  let p_per_1000 := zip_with (λ p o, p / o * 1000)%float price odo in
  let invalid :=
    zip_with orb (zip_with orb (is_nan <$> price) (is_nan <$> odo))
                 ((λ o, o =? 0)%float <$> odo) in
  let p_per_1000 := zip_with (λ x (m : bool), if m then nan else x) p_per_1000 invalid in
  around2 <$> p_per_1000.

(** [out["price_per_1000km"] = s]. *)
Definition assign_price_per_1000km (out : Frame Norm) (s : list float) : Frame Car :=
  zip_with (λ r x, (r.1, {| norm := r.2; price_per_1000km := x |})) out s.

Definition transform_cars (df : RawFrame) : result (Frame Car) :=
  out ← _normalize_columns df;
  let out := assign_price_per_1000km out (price_per_1000km_column out) in
  (* out = out[out["url"].notna()] *)
  let out := filter (λ r : nat * Car, is_Some (url r.2)) out in
  (* out = out.drop_duplicates(subset=["url"], keep="last") *)
  let out := drop_duplicates_last (λ r : nat * Car, url r.2) out in
  (* out.reset_index(drop=True, inplace=True) *)
  Ok (reset_index out).
End transform.

(** The string cleanup of one value: to text, stripped, empty as missing. *)
Definition clean_text (float_repr : float → str) (c : Cell) : option str :=
  replace_empty (strip <$> astype_string float_repr c).

(** The derived metric of a row as a guarded formula, with the rounding
    of numpy. *)
Definition guarded_price_per_1000km (price odometer : option Z) : float :=
  match price, odometer with
  | Some p, Some o =>
      if (o =? 0)%Z then nan else around2 (Z2F p / Z2F o * 1000)%float
  | _, _ => nan
  end.

(** Python's [round(x, 2)]: the exact value of the float rounded to two
    decimals, ties to even, and the float nearest to that decimal. *)
Definition round_half_even (num den : Z) : Z :=
  let q := (num / den)%Z in
  match (2 * (num mod den) ?= den)%Z with
  | Lt => q
  | Gt => (q + 1)%Z
  | Eq => if Z.even q then q else (q + 1)%Z
  end.

Definition round2 (x : float) : float :=
  match Prim2SF x with
  | S754_finite s m e =>
      let hundredths :=
        if (0 <=? e)%Z then (Z.pos m * 2 ^ e * 100)%Z
        else round_half_even (Z.pos m * 100) (2 ^ (- e)) in
      match hundredths with
      | Z.pos n => SF2Prim (SFdiv prec emax (S754_finite s n 0) (S754_finite false 100 0))
      | _ => SF2Prim (S754_zero s)
      end
  | _ => x
  end.

(** The derived metric as the specification states it:
    [round(price / odometer * 1000.0, 2)]. *)
Definition spec_price_per_1000km (price odometer : option Z) : float :=
  match price, odometer with
  | Some p, Some o =>
      if (o =? 0)%Z then nan else round2 (Z2F p / Z2F o * 1000)%float
  | _, _ => nan
  end.

(** ** etl_cars.py: row conversion *)

(** A Python value found in a row tuple: [None], [pd.NA], an int, a float
    (NaN included) or a str. *)
Inductive Value : Type :=
  | VNone
  | VNA
  | VInt (z : Z)
  | VFloat (f : float)
  | VStr (s : str).

(** [df.itertuples(index=False, name=None)] of a transformed table: a
    "string" or "Int64" column yields its value or [pd.NA], the float64
    column yields its float. *)
Definition string_value (s : option str) : Value := from_option VStr VNA s.
Definition Int64_value (z : option Z) : Value := from_option VInt VNA z.

Definition tuple_of (r : Car) : list Value :=
  [ string_value (url r); string_value (regnr r); Int64_value (model_year r);
    Int64_value (price_sek r); Int64_value (odometer_km r); string_value (fuel r);
    string_value (body_type r); Int64_value (horsepower r);
    VFloat (price_per_1000km r) ].

Definition itertuples (df : Frame Car) : list (list Value) := tuple_of <$> df.*2.

(** The ten parameters of one UPSERT, in the order of the table's columns. *)
Record DbRow := {
  db_url : option str;
  db_regnr : option str;
  db_model_year : option Z;
  db_price_sek : option Z;
  db_odometer_km : option Z;
  db_fuel : option str;
  db_body_type : option str;
  db_horsepower : option Z;
  db_price_per_1000km : option float;
  load_ts : option str
}.

(** The UTC clock: its successive readings, already in ISO format. *)
Definition Clock : Type := nat → str.

(** [datetime.now(timezone.utc).isoformat()]. *)
Definition now_isoformat (clock : Clock) : str * Clock := (clock 0%nat, λ n, clock (S n)).

Definition is_None (v : Value) : bool := match v with VNone => true | _ => false end.
Definition isinstance_float (v : Value) : bool := match v with VFloat _ => true | _ => false end.
Definition np_isnan (v : Value) : bool := match v with VFloat f => is_nan f | _ => false end.
Definition pd_isna (v : Value) : bool :=
  match v with
  | VNone | VNA => true
  | VFloat f => is_nan f
  | _ => false
  end.

(** [r[i]]. *)
Definition item (r : list Value) (i : nat) : result Value :=
  match r !! i with
  | Some v => Ok v
  | None => Raise IndexError
  end.

Section convert.
(** Python's [str(f)] of a float and its readings [int(s)], [float(s)] of
    a str. *)
Variable float_repr : float → str.
Variable int_of_str : str → option Z.
Variable float_of_str : str → option float.

Definition py_str (v : Value) : result str :=
  Ok match v with
     | VNone => lit "None"
     | VNA => lit "<NA>"
     | VInt z => str_of_int z
     | VFloat f => float_repr f
     | VStr s => s
     end.

Definition py_int (v : Value) : result Z :=
  match v with
  | VNone | VNA => Raise TypeError
  | VInt z => Ok z
  | VFloat f =>
      match F2Z_trunc f with
      | Some z => Ok z
      | None => Raise (if is_nan f then ValueError else OverflowError)
      end
  | VStr s => from_option Ok (Raise ValueError) (int_of_str s)
  end.

Definition py_float (v : Value) : result float :=
  match v with
  | VNone | VNA => Raise TypeError
  | VInt z => if is_infinity (Z2F z) then Raise OverflowError else Ok (Z2F z)
  | VFloat f => Ok f
  | VStr s => from_option Ok (Raise ValueError) (float_of_str s)
  end.

(** The local helper of _convert_row_for_db; every call passes a cast. *)
Definition _none {A} (v : Value) (cast : Value → result A) : result (option A) :=
  if is_None v || (isinstance_float v && np_isnan v) || pd_isna v then Ok None
  else Some <$> cast v.

Definition convert_row (now : str) (r : list Value) : result DbRow :=
  c0 ← (v ← item r 0; _none v py_str);
  c1 ← (v ← item r 1; _none v py_str);
  c2 ← (v ← item r 2; _none v py_int);
  c3 ← (v ← item r 3; _none v py_int);
  c4 ← (v ← item r 4; _none v py_int);
  c5 ← (v ← item r 5; _none v py_str);
  c6 ← (v ← item r 6; _none v py_str);
  c7 ← (v ← item r 7; _none v py_int);
  c8 ← (v ← item r 8; _none v py_float);
  Ok {| db_url := c0; db_regnr := c1; db_model_year := c2; db_price_sek := c3;
        db_odometer_km := c4; db_fuel := c5; db_body_type := c6;
        db_horsepower := c7; db_price_per_1000km := c8; load_ts := Some now |}.

Definition _convert_row_for_db (rows : list (list Value)) (clock : Clock)
  : result (list DbRow) * Clock :=
  let '(now, clock) := now_isoformat clock in
  (traverse (convert_row now) rows, clock).
End convert.

(** ** db_cars.py: the store *)

(** The fact_cars table: its rows in rowid order. *)
Abbreviation Table := (list DbRow).

(** A connection: the committed table and the table as the open
    transaction, if any, has it. *)
Record Conn := { committed : Table; pending : option Table }.

Definition view (conn : Conn) : Table := default (committed conn) (pending conn).
Definition commit (conn : Conn) : Conn := {| committed := view conn; pending := None |}.
Definition rollback (conn : Conn) : Conn := {| committed := committed conn; pending := None |}.

(** Binding the parameters: an int beyond 64 bits is refused, a NaN is bound
    as NULL. *)
Definition bind_int (z : option Z) : bool := from_option in_int64 true z.

(** A NaN parameter is bound as NULL. *)
Definition nan_as_null (f : option float) : option float :=
  match f with
  | Some f => if is_nan f then None else Some f
  | None => None
  end.

Definition bound (r : DbRow) : DbRow :=
  {| db_url := db_url r; db_regnr := db_regnr r;
     db_model_year := db_model_year r; db_price_sek := db_price_sek r;
     db_odometer_km := db_odometer_km r; db_fuel := db_fuel r;
     db_body_type := db_body_type r; db_horsepower := db_horsepower r;
     db_price_per_1000km := nan_as_null (db_price_per_1000km r);
     load_ts := load_ts r |}.

Definition bind_parameters (r : DbRow) : result DbRow :=
  if bind_int (db_model_year r) && bind_int (db_price_sek r)
     && bind_int (db_odometer_km r) && bind_int (db_horsepower r)
  then Ok (bound r)
  else Raise OverflowError.

(** [check (c is null or c >= lo)]. *)
Definition check_ge (c : option Z) (lo : Z) : bool := from_option (Z.leb lo) true c.

(** The CHECK and NOT NULL constraints of DDL. *)
Definition DDL_checks (r : DbRow) : bool :=
  check_ge (db_model_year r) 1900 && check_ge (db_price_sek r) 0
  && check_ge (db_odometer_km r) 0 && check_ge (db_horsepower r) 0
  && from_option (λ f, 0 <=? f)%float true (db_price_per_1000km r)
  && bool_decide (is_Some (load_ts r)).

(** [regnr text unique]: NULLs never collide. *)
Definition regnr_taken (t : Table) (g : option str) : bool :=
  bool_decide (is_Some g ∧ g ∈ db_regnr <$> t).

(** [url text primary key]: the row the new one conflicts with.  SQLite
    lets a primary key that is not an integer be NULL, and NULLs never
    collide. *)
Definition url_conflict (t : Table) (u : option str) : option (nat * DbRow) :=
  match u with
  | Some _ => list_find (λ s, db_url s = u) t
  | None => None
  end.

(** [on conflict(url) do update set ...]: the nine assignments. *)
Definition do_update (old excluded : DbRow) : DbRow :=
  {| db_url := db_url old;
     db_regnr := db_regnr excluded;
     db_model_year := db_model_year excluded;
     db_price_sek := db_price_sek excluded;
     db_odometer_km := db_odometer_km excluded;
     db_fuel := db_fuel excluded;
     db_body_type := db_body_type excluded;
     db_horsepower := db_horsepower excluded;
     db_price_per_1000km := db_price_per_1000km excluded;
     load_ts := load_ts excluded |}.

(** One execution of UPSERT_SQL. *)
Definition UPSERT_SQL (t : Table) (params : DbRow) : result Table :=
  r ← bind_parameters params;
  if negb (DDL_checks r) then Raise IntegrityError
  else match url_conflict t (db_url r) with
       | Some (i, old) =>
           if regnr_taken (delete i t) (db_regnr r) then Raise IntegrityError
           else Ok (<[i := do_update old r]> t)
       | None =>
           if regnr_taken t (db_regnr r) then Raise IntegrityError
           else Ok (t ++ [r])
       end.

(** The statements of one [executemany], each on the table the previous one
    left; the first failure stops the run. *)
Fixpoint run_statements (t : Table) (rows : list DbRow) : Table * result () :=
  match rows with
  | [] => (t, Ok ())
  | r :: rows' =>
      match UPSERT_SQL t r with
      | Ok t' => run_statements t' rows'
      | Raise e => (t, Raise e)
      end
  end.

(** [conn.executemany(UPSERT_SQL, rows)]: a transaction is opened if none
    is, and stays open. *)
Definition executemany (conn : Conn) (rows : list DbRow) : Conn * result () :=
  let '(t, res) := run_statements (view conn) rows in
  ({| committed := committed conn; pending := Some t |}, res).

(** [sqlite3.connect] on the database file, [init_schema] (the DDL creates
    what is absent and touches no row) and [conn.close()] (work that was
    not committed is lost). *)
Definition get_conn (db : Table) : Conn := {| committed := db; pending := None |}.
Definition init_schema (conn : Conn) : Conn := commit conn.
Definition close (conn : Conn) : Table := committed conn.

Definition upsert_cars (conn : Conn) (rows : list DbRow) : Conn * result nat :=
  let rows_list := rows in
  match rows_list with
  | [] => (conn, Ok 0%nat)
  | _ =>
      (* with conn: conn.executemany(UPSERT_SQL, rows_list) *)
      let '(conn, res) := executemany conn rows_list in
      match res with
      | Ok _ => (commit conn, Ok (length rows_list))
      | Raise e => (rollback conn, Raise e)
      end
  end.

(** ** etl_cars.py: load *)

Section load.
Variable float_repr : float → str.
Variable int_of_str : str → option Z.
Variable float_of_str : str → option float.

(** [load_cars(df, db_path)], on the rows of [df], the table in the file
    at [db_path] and the clock. *)
Definition load_cars (df : list (list Value)) (db : Table) (clock : Clock)
  : Table * Clock * result nat :=
  let conn := get_conn db in
  let conn := init_schema conn in
  let '(rows, clock) := _convert_row_for_db float_repr int_of_str float_of_str df clock in
  match rows with
  | Ok rows =>
      let '(conn, affected) := upsert_cars conn rows in
      (close conn, clock, affected)
  | Raise e => (close conn, clock, Raise e)
  end.
End load.

(** ** etl_cars.py: extract and orchestration *)

(** What [pd.read_excel(path, sheet_name=sheet)] returns: the sheet asked
    for, or, for [sheet_name=None], the dict of all the sheets of the
    workbook by name, in the order of the workbook, which has at least
    one. *)
Inductive Sheets : Type :=
  | OneSheet (df : RawFrame)
  | AllSheets (first : str * RawFrame) (rest : list (str * RawFrame)).

(** [extract_excel(path, sheet)], on the outcome of [pd.read_excel]; an
    exception is logged and raised again. *)
Definition extract_excel (read_excel : result Sheets) : result RawFrame :=
  df ← read_excel;
  Ok match df with
     | OneSheet df => df
     | AllSheets first _ => first.2   (* next(iter(df.values())) *)
     end.

Section run.
Variable parse_number : str → option Num.
Variable float_repr : float → str.
Variable int_of_str : str → option Z.
Variable float_of_str : str → option float.

(** [run_etl(excel_path, db_path, log_path, sheet)], on the outcome of
    reading the workbook, the table in the database file and the clock.
    The log is left out: _setup_logging and the log calls are taken to
    succeed, and an exception of a stage is logged and raised again. *)
Definition run_etl (read_excel : result Sheets) (db : Table) (clock : Clock)
  : Table * Clock * result nat :=
  match extract_excel read_excel with
  | Ok df_raw =>
      match transform_cars parse_number float_repr df_raw with
      | Ok df_tr =>
          load_cars float_repr int_of_str float_of_str (itertuples df_tr) db clock
      | Raise e => (db, clock, Raise e)
      end
  | Raise e => (db, clock, Raise e)
  end.
End run.

(** What the --sheet option denotes: no sheet name, a sheet index or a
    sheet name. *)
Inductive SheetArg : Type :=
  | SheetNone
  | SheetIndex (i : Z)
  | SheetName (name : str).

Section sheet_arg.
(** Python's [str.lower], [str.isdigit] and [int] of a str. *)
Variable lower : str → str.
Variable isdigit : str → bool.
Variable int_of_str : str → option Z.

(** [_sheet_arg(value)]: the --sheet argument as given on the command
    line, or [None] when the option is absent. *)
Definition _sheet_arg (value : option str) : result SheetArg :=
  match value with
  | None => Ok SheetNone
  | Some value =>
      let v := strip value in
      if decide (lower v = lit "none") then Ok SheetNone
      else if isdigit v then
        from_option (λ i, Ok (SheetIndex i)) (Raise ValueError) (int_of_str v)
      else Ok (SheetName v)
  end.
End sheet_arg.

(** A normalized row with its derived metric. *)
Definition with_price_per_1000km (r : Norm) : Car :=
  {| norm := r;
     price_per_1000km := guarded_price_per_1000km (price_sek r) (odometer_km r) |}.

(** ** Notions used to state the properties of the load *)

(** All the statements of a batch applied in order, or the first error. *)
Fixpoint apply_all (t : Table) (rows : list DbRow) : result Table :=
  match rows with
  | [] => Ok t
  | r :: rows' => t' ← UPSERT_SQL t r; apply_all t' rows'
  end.

(** The three encodings of a missing value: [None], [pd.NA] and a NaN. *)
Definition semantically_missing (v : Value) : Prop :=
  v = VNone ∨ v = VNA ∨ ∃ f, v = VFloat f ∧ is_nan f = true.

(** The parameters of a transformed row, stamped with [now]. *)
Definition to_db_row (now : str) (r : Car) : DbRow :=
  {| db_url := url r; db_regnr := regnr r; db_model_year := model_year r;
     db_price_sek := price_sek r; db_odometer_km := odometer_km r;
     db_fuel := fuel r; db_body_type := body_type r;
     db_horsepower := horsepower r;
     db_price_per_1000km :=
       if is_nan (price_per_1000km r) then None else Some (price_per_1000km r);
     load_ts := Some now |}.

Definition set_load_ts (ts : option str) (r : DbRow) : DbRow :=
  {| db_url := db_url r; db_regnr := db_regnr r;
     db_model_year := db_model_year r; db_price_sek := db_price_sek r;
     db_odometer_km := db_odometer_km r; db_fuel := db_fuel r;
     db_body_type := db_body_type r; db_horsepower := db_horsepower r;
     db_price_per_1000km := db_price_per_1000km r;
     load_ts := ts |}.

(** A stored row without its load timestamp. *)
Definition forget_load_ts (r : DbRow) : DbRow := set_load_ts None r.

(** The table with the rows of the given urls stamped anew. *)
Definition restamp (now : str) (urls : list (option str)) (t : Table) : Table :=
  (λ r, if decide (db_url r ∈ urls) then set_load_ts (Some now) r else r) <$> t.

(** No two rows share a non-NULL value of the column. *)
Definition unique_on (col : DbRow → option str) (t : Table) : Prop :=
  ∀ i j x y, t !! i = Some x → t !! j = Some y → is_Some (col x) → col x = col y → i = j.

(** A table as SQLite keeps it under DDL: the primary key and the unique
    column hold, and every row is a bound row that passes the checks. *)
Definition stored_ok (t : Table) : Prop :=
  unique_on db_url t ∧ unique_on db_regnr t
  ∧ Forall (λ r, bind_parameters r = Ok r ∧ DDL_checks r = true) t.

(** What the specification asks of the derived metric of a row. *)
Definition price_per_1000km_as_specified (r : Car) : Prop :=
  (∀ p o, price_sek r = Some p → odometer_km r = Some o → o ≠ 0%Z →
          price_per_1000km r = round2 (Z2F p / Z2F o * 1000)%float)
  ∧ (price_sek r = None ∨ odometer_km r = None ∨ odometer_km r = Some 0%Z →
     price_per_1000km r = nan).

(** The derived metric of a row as the code computes it: the quotient
    scaled by 100, rounded to the nearest integer (ties to even) and scaled
    back, all in binary64. *)
Definition price_per_1000km_as_computed (r : Car) : Prop :=
  (∀ p o, price_sek r = Some p → odometer_km r = Some o → o ≠ 0%Z →
          price_per_1000km r = (rint (Z2F p / Z2F o * 1000 * 100) / 100)%float)
  ∧ (price_sek r = None ∨ odometer_km r = None ∨ odometer_km r = Some 0%Z →
     price_per_1000km r = nan).

(** The position of a row that the transform keeps: the row has a url, and
    no later row of the table has the same url. *)
Definition last_of_its_url (cleaned : list Car) (i : nat) : Prop :=
  ∃ r : Car, cleaned !! i = Some r ∧ is_Some (url r)
             ∧ ∀ j (r' : Car), (i < j)%nat → cleaned !! j = Some r' → url r' ≠ url r.

(** A sheet whose price cell is a number with a fraction. *)
Definition df_fractional_price : RawFrame :=
  {| header := [lit "Url"; lit "Pris (kr)"];
     body := [[CText (lit "http://x/1"); CFloat 199999.5]] |}.

(** ** Notions used to state the properties of the transform *)

(** The spreadsheet header that COLUMN_MAP sends to a canonical name. *)
Definition header_of (dest : Field) : str :=
  from_option (λ p : nat * (str * Field), p.2.1) []
              (list_find (λ p : str * Field, p.2 = dest) COLUMN_MAP).

(** One pass of the numeric loop of _normalize_columns, on a source
    column. *)
Definition coerce_Int64 (parse_number : str → option Num) (s : list Cell)
  : result (list (option Z)) :=
  s ← to_numeric parse_number s; astype_Int64 s.

(** The Int64 value of a number that has one: the integer itself, missing
    for a NaN, and the value of a float that denotes an integer. *)
Definition Int64_of_Num (n : Num) : option Z :=
  match n with
  | NInt z => Some z
  | NFloat f => if is_nan f then None else F2Z_exact f
  end.

(** The numbers astype("Int64") takes from a float64 array without loss: a
    NaN, an integer that binary64 represents exactly, and a float that
    denotes an integer of the int64 range. *)
Definition safe_Num (n : Num) : Prop :=
  match n with
  | NInt z => (- 2 ^ 53 < z < 2 ^ 53)%Z
  | NFloat f => is_nan f = true ∨ ∃ z, F2Z_exact f = Some z ∧ in_int64 z = true
  end.

(** The Int64 value of a cell, through its numeric reading. *)
Definition numeric_value (parse_number : str → option Num) (c : Cell) : option Z :=
  Int64_of_Num (to_numeric_cell parse_number c).

(** The field of a normalized row is missing. *)
Definition missing_in (f : Field) (r : Norm) : Prop :=
  match f with
  | Furl => url r = None
  | Fregnr => regnr r = None
  | Fmodel_year => model_year r = None
  | Fprice_sek => price_sek r = None
  | Fodometer_km => odometer_km r = None
  | Ffuel => fuel r = None
  | Fbody_type => body_type r = None
  | Fhorsepower => horsepower r = None
  end.

(** A text that is not empty and has no leading or trailing whitespace. *)
Definition trimmed (s : str) : Prop :=
  s ≠ [] ∧ (∀ c s', s = c :: s' → isspace c = false)
  ∧ (∀ c s', s = s' ++ [c] → isspace c = false).

(** The text fields of a row, when present, are trimmed. *)
Definition text_fields_trimmed (r : Norm) : Prop :=
  (∀ s, url r = Some s → trimmed s) ∧ (∀ s, regnr r = Some s → trimmed s)
  ∧ (∀ s, fuel r = Some s → trimmed s) ∧ (∀ s, body_type r = Some s → trimmed s).

(** ** Sample data *)

(** Stand-ins for the library functions the model takes as parameters, for
    data that holds no float to print and no numeric text to read. *)
Definition demo_parse_number : str → option Num := λ _, None.
Definition demo_float_repr : float → str := λ _, lit "nan".
Definition demo_int_of_str : str → option Z := λ _, None.
Definition demo_float_of_str : str → option float := λ _, None.

(** The sheet of tests/test_cars.py, with a second listing of the same url
    appended and a row without url. *)
Definition demo_sheet : RawFrame :=
  {| header := fst <$> COLUMN_MAP;
     body :=
       [ [CText (lit "http://test.se/1"); CText (lit "ABC123"); CInt 2020; CInt 200000;
          CInt 5000; CText (lit "Bensin"); CText (lit "Kombi"); CInt 150];
         [CText (lit "   "); CText (lit "XYZ999"); CInt 2019; CInt 100000;
          CInt 0; CText (lit "Diesel"); CText (lit "Sedan"); CInt 120];
         [CText (lit " http://test.se/1 "); CText (lit "ABC124"); CText (lit "n/a"); CInt 100000;
          CInt 0; CNull; CText (lit "Kombi"); CInt 150] ] |}.

Definition demo_car : Car :=
  {| norm := {| url := Some (lit "http://test.se/1"); regnr := Some (lit "ABC123");
                model_year := Some 2020%Z; price_sek := Some 200000%Z;
                odometer_km := Some 5000%Z; fuel := Some (lit "Bensin");
                body_type := Some (lit "Kombi"); horsepower := Some 150%Z |};
     price_per_1000km := 40000 |}.

Definition demo_df : Frame Car := [(0%nat, demo_car)].

(** A clock whose readings differ. *)
Definition demo_clock : Clock :=
  λ n, lit "2025-01-01T00:00:0" ++ str_of_int (Z.of_nat n) ++ lit "+00:00".

Definition demo_first_load : Table * Clock * result nat :=
  load_cars demo_float_repr demo_int_of_str demo_float_of_str
    (itertuples demo_df) [] demo_clock.

Definition demo_second_load : Table * Clock * result nat :=
  load_cars demo_float_repr demo_int_of_str demo_float_of_str
    (itertuples demo_df) demo_first_load.1.1 demo_first_load.1.2.

(** A stored row, and incoming parameters for its url with NULLs. *)
Definition demo_stored : DbRow := to_db_row (demo_clock 0%nat) demo_car.

Definition demo_params : DbRow :=
  {| db_url := Some (lit "http://test.se/1"); db_regnr := None;
     db_model_year := None; db_price_sek := Some 180000%Z;
     db_odometer_km := None; db_fuel := None; db_body_type := None;
     db_horsepower := None; db_price_per_1000km := None;
     load_ts := Some (demo_clock 1%nat) |}.

(** Parameters that fail the check on price_sek. *)
Definition demo_bad_params : DbRow :=
  {| db_url := Some (lit "http://test.se/2"); db_regnr := None;
     db_model_year := None; db_price_sek := Some (-1)%Z;
     db_odometer_km := None; db_fuel := None; db_body_type := None;
     db_horsepower := None; db_price_per_1000km := None;
     load_ts := Some (demo_clock 1%nat) |}.

(** The transformed table of [demo_sheet]. *)
Definition demo_transformed : Frame Car :=
  [(0%nat,
    {| norm := {| url := Some (lit "http://test.se/1"); regnr := Some (lit "ABC124");
                  model_year := None; price_sek := Some 100000%Z;
                  odometer_km := Some 0%Z; fuel := None;
                  body_type := Some (lit "Kombi"); horsepower := Some 150%Z |};
       price_per_1000km := nan |})].

(** The sheet of the tests alone, and a sheet that has the url column
    only. *)
Definition demo_test_sheet : RawFrame :=
  {| header := header demo_sheet; body := take 1 (body demo_sheet) |}.

Definition demo_url_sheet : RawFrame :=
  {| header := [lit "Url"]; body := [[CText (lit "http://test.se/1")]] |}.

(** Another listing of the stored car, under a second url, and a row with
    neither url nor regnr. *)
Definition demo_other_listing : DbRow :=
  {| db_url := Some (lit "http://test.se/2"); db_regnr := Some (lit "ABC123");
     db_model_year := Some 2020%Z; db_price_sek := Some 190000%Z;
     db_odometer_km := Some 6000%Z; db_fuel := None; db_body_type := None;
     db_horsepower := None; db_price_per_1000km := None;
     load_ts := Some (demo_clock 1%nat) |}.

Definition demo_no_url : DbRow :=
  {| db_url := None; db_regnr := None;
     db_model_year := None; db_price_sek := Some 50000%Z;
     db_odometer_km := None; db_fuel := None; db_body_type := None;
     db_horsepower := None; db_price_per_1000km := None;
     load_ts := Some (demo_clock 0%nat) |}.

(** A workbook read without a sheet name, and the pipeline run on it with
    an empty store. *)
Definition demo_workbook : result Sheets := Ok (AllSheets (lit "Blad1", demo_sheet) []).

Definition demo_run : Table * Clock * result nat :=
  run_etl demo_parse_number demo_float_repr demo_int_of_str demo_float_of_str
    demo_workbook [] demo_clock.

(** A second car, a sheet of the two listings, and its transformed table. *)
Definition demo_car2 : Car :=
  {| norm := {| url := Some (lit "http://test.se/2"); regnr := Some (lit "XYZ999");
                model_year := Some 2019%Z; price_sek := Some 100000%Z;
                odometer_km := Some 8000%Z; fuel := Some (lit "Diesel");
                body_type := Some (lit "Sedan"); horsepower := Some 120%Z |};
     price_per_1000km := 12500 |}.

Definition demo_two_sheet : RawFrame :=
  {| header := header demo_sheet;
     body :=
       take 1 (body demo_sheet)
       ++ [[CText (lit "http://test.se/2"); CText (lit "XYZ999"); CInt 2019; CInt 100000;
            CInt 8000; CText (lit "Diesel"); CText (lit "Sedan"); CInt 120]] |}.

Definition demo_df2 : Frame Car := [(0%nat, demo_car); (1%nat, demo_car2)].

(** The two listings followed by the first one again, cell for cell. *)
Definition demo_repeated_sheet : RawFrame :=
  {| header := header demo_sheet;
     body := body demo_two_sheet ++ take 1 (body demo_sheet) |}.

(** A listing of 20005 kr at 200000 km: the quotient times 1000 is the
    binary64 number 100.02500000000001, and the same scaled by 100 is
    10002.5 exactly. *)
Definition df_rounding : RawFrame :=
  {| header := [header_of Furl; header_of Fprice_sek; header_of Fodometer_km];
     body := [[CText (lit "http://x/1"); CInt 20005; CInt 200000]] |}.

Definition demo_rounding_car : Car :=
  {| norm := {| url := Some (lit "http://x/1"); regnr := None; model_year := None;
                price_sek := Some 20005%Z; odometer_km := Some 200000%Z; fuel := None;
                body_type := None; horsepower := None |};
     price_per_1000km := 10002 / 100 |}.

(** Sheets of two listings in which one price is an infinity, and an
    integer that binary64 does not reach. *)
Definition df_infinite_price : RawFrame :=
  {| header := [lit "Url"; lit "Pris (kr)"];
     body := [[CText (lit "http://x/1"); CInt 150000];
              [CText (lit "http://x/2"); CFloat infinity]] |}.

Definition df_huge_price : RawFrame :=
  {| header := [lit "Url"; lit "Pris (kr)"];
     body := [[CText (lit "http://x/1"); CInt 150000];
              [CText (lit "http://x/2"); CInt (2 ^ 1024)]] |}.

(** * Facts about binary64 conversion *)

Section float_facts.
Local Open Scope Z_scope.

Lemma digits2_bounds (p : positive) :
  2 ^ (Z.pos (digits2_pos p) - 1) <= Z.pos p < 2 ^ Z.pos (digits2_pos p).
Proof.
  induction p as [p IH|p IH|]; cbn [digits2_pos].
  - rewrite Pos2Z.inj_succ, Z.pow_succ_r by lia.
    replace (Z.succ (Z.pos (digits2_pos p)) - 1)
      with (Z.succ (Z.pos (digits2_pos p) - 1)) by lia.
    rewrite Z.pow_succ_r by lia. lia.
  - rewrite Pos2Z.inj_succ, Z.pow_succ_r by lia.
    replace (Z.succ (Z.pos (digits2_pos p)) - 1)
      with (Z.succ (Z.pos (digits2_pos p) - 1)) by lia.
    rewrite Z.pow_succ_r by lia. lia.
  - cbn. lia.
Qed.

Lemma digits2_unique (p : positive) (k : Z) :
  2 ^ (k - 1) <= Z.pos p < 2 ^ k → Z.pos (digits2_pos p) = k.
Proof.
  intros [Hlo Hhi]. pose proof (digits2_bounds p) as [Hlo' Hhi'].
  assert (0 < k).
  { destruct (Z.lt_trichotomy k 0) as [Hn|[->|?]]; [|simpl in Hhi; lia|done].
    rewrite Z.pow_neg_r in Hhi by done. lia. }
  destruct (Z.lt_trichotomy (Z.pos (digits2_pos p)) k) as [Hlt|[?|Hgt]]; [|done|].
  - assert (2 ^ Z.pos (digits2_pos p) <= 2 ^ (k - 1)) by (apply Z.pow_le_mono_r; lia).
    lia.
  - assert (2 ^ k <= 2 ^ (Z.pos (digits2_pos p) - 1)) by (apply Z.pow_le_mono_r; lia).
    lia.
Qed.

Lemma iter_pos_nat {A} (f : A → A) (p : positive) (x : A) :
  SpecFloat.iter_pos f p x = Nat.iter (Pos.to_nat p) f x.
Proof.
  revert x. induction p as [p IH|p IH|]; intros x; cbn [SpecFloat.iter_pos]; [| |done].
  - rewrite !IH, Pos2Nat.inj_xI, <- Nat.iter_succ_r.
    replace (S (2 * Pos.to_nat p))%nat
      with (Pos.to_nat p + S (Pos.to_nat p))%nat by lia.
    by rewrite Nat.iter_add.
  - rewrite !IH, Pos2Nat.inj_xO.
    replace (2 * Pos.to_nat p)%nat with (Pos.to_nat p + Pos.to_nat p)%nat by lia.
    by rewrite Nat.iter_add.
Qed.

Lemma shr_1_m (r : shr_record) : 0 <= shr_m r → shr_m (shr_1 r) = shr_m r / 2.
Proof.
  destruct r as [m r s]. destruct m as [|[p|p|]|p]; cbn; intros Hm; try done.
  - apply Z.div_unique with 1; lia.
  - apply Z.div_unique with 0; lia.
Qed.

Lemma shr_iter_m (n : nat) (r : shr_record) :
  0 <= shr_m r → shr_m (Nat.iter n shr_1 r) = shr_m r / 2 ^ Z.of_nat n.
Proof.
  intros Hm. induction n as [|n IH].
  - cbn. by rewrite Z.div_1_r.
  - rewrite Nat.iter_succ, shr_1_m, IH.
    + rewrite Z.div_div by lia. f_equal. rewrite Nat2Z.inj_succ, Z.pow_succ_r; lia.
    + rewrite IH. apply Z.div_pos; lia.
Qed.

Lemma shr_spec (mrs r' : shr_record) (e n e' : Z) :
  0 <= shr_m mrs → shr mrs e n = (r', e') →
  shr_m r' = shr_m mrs / 2 ^ Z.max 0 n ∧ e' = e + Z.max 0 n.
Proof.
  intros Hm. destruct n as [|p|p]; cbn [shr]; intros [= <- <-].
  - by rewrite Z.div_1_r, Z.add_0_r.
  - rewrite iter_pos_nat, shr_iter_m, positive_nat_Z by done.
    by rewrite Z.max_r by lia.
  - rewrite Z.max_l by lia. by rewrite Z.div_1_r, Z.add_0_r.
Qed.

Lemma shr_fexp_spec (m e : Z) (l : location) (r' : shr_record) (e' : Z) :
  0 <= m → shr_fexp prec emax m e l = (r', e') →
  let n := Z.max 0 (fexp prec emax (Zdigits2 m + e) - e) in
  shr_m r' = m / 2 ^ n ∧ e' = e + n.
Proof.
  intros Hm Hs. unfold shr_fexp in Hs. apply shr_spec in Hs.
  - by replace (shr_m (shr_record_of_loc m l)) with m in Hs by by destruct l as [|[]].
  - by destruct l as [|[]].
Qed.

Lemma round_nearest_even_bounds (m : Z) (l : location) :
  m <= round_nearest_even m l <= m + 1.
Proof. destruct l as [|[]]; cbn; try lia. destruct (Z.even m); lia. Qed.

Lemma fexp_normal (k : Z) : -1021 <= k → fexp prec emax k = k - 53.
Proof. unfold fexp, emin, prec, emax. lia. Qed.

(** Rounding a mantissa of at least 53 bits never underflows: the result
    is a canonical finite number or an infinity. *)
Lemma binary_round_aux_normal (sx : bool) (mz : positive) (ez : Z) :
  53 <= Z.pos (digits2_pos mz) → -1074 <= ez →
  (∃ m e, binary_round_aux prec emax sx (Z.pos mz) ez loc_Exact = S754_finite sx m e
          ∧ bounded prec emax m e = true)
  ∨ binary_round_aux prec emax sx (Z.pos mz) ez loc_Exact = S754_infinity sx.
Proof.
  intros Hd He. pose proof (digits2_bounds mz) as [Hlo Hhi].
  set (d := Z.pos (digits2_pos mz)) in *.
  unfold binary_round_aux.
  destruct (shr_fexp prec emax (Z.pos mz) ez loc_Exact) as [r1 e1] eqn:E1.
  apply shr_fexp_spec in E1 as [Hm1 He1]; [|lia]. cbn [Zdigits2] in Hm1, He1.
  fold d in Hm1, He1. rewrite fexp_normal in Hm1, He1 by lia.
  replace (Z.max 0 (d + ez - 53 - ez)) with (d - 53) in Hm1, He1 by lia.
  assert (2 ^ 52 <= shr_m r1 < 2 ^ 53) as [Hlo1 Hhi1].
  { rewrite Hm1. split.
    - apply Z.div_le_lower_bound; [lia|]. rewrite <- Z.pow_add_r by lia.
      by replace (d - 53 + 52) with (d - 1) by lia.
    - apply Z.div_lt_upper_bound; [lia|]. rewrite <- Z.pow_add_r by lia.
      by replace (d - 53 + 53) with d by lia. }
  pose proof (round_nearest_even_bounds (shr_m r1) (loc_of_shr_record r1)) as Hr.
  set (m2 := round_nearest_even (shr_m r1) (loc_of_shr_record r1)) in *.
  destruct (shr_fexp prec emax m2 e1 loc_Exact) as [r2 e2] eqn:E2.
  apply shr_fexp_spec in E2 as [Hm2 He2]; [|lia].
  destruct m2 as [|p2|p2] eqn:Ep2; [lia| |lia].
  cbn [Zdigits2] in Hm2, He2.
  assert (Z.pos (digits2_pos p2) = 53 ∧ shr_m r2 = Z.pos p2 ∧ e2 = e1
          ∨ Z.pos (digits2_pos p2) = 54 ∧ shr_m r2 = 2 ^ 52 ∧ e2 = e1 + 1) as Hcase.
  { destruct (Z.eq_dec (Z.pos p2) (2 ^ 53)) as [Heq|Hne].
    - right. assert (Z.pos (digits2_pos p2) = 54) as Hd2.
      { apply digits2_unique. rewrite Heq. replace (54 - 1) with 53 by lia.
        split; [lia|]. apply Z.pow_lt_mono_r; lia. }
      rewrite Hd2, fexp_normal in Hm2, He2 by lia.
      replace (Z.max 0 (54 + e1 - 53 - e1)) with 1 in Hm2, He2 by lia.
      rewrite Heq in Hm2. by rewrite Hm2, He2.
    - left. assert (Z.pos (digits2_pos p2) = 53) as Hd2.
      { apply digits2_unique. replace (53 - 1) with 52 by lia. lia. }
      rewrite Hd2, fexp_normal in Hm2, He2 by lia.
      replace (Z.max 0 (53 + e1 - 53 - e1)) with 0 in Hm2, He2 by lia.
      rewrite Z.div_1_r in Hm2. split_and!; [done..|lia]. }
  assert (∃ m3, shr_m r2 = Z.pos m3 ∧ Z.pos (digits2_pos m3) = 53) as (m3 & -> & Hd3).
  { destruct Hcase as [(? & -> & _)|(_ & -> & _)]; [by eexists|].
    by exists (2 ^ 52)%positive. }
  destruct (e2 <=? emax - prec) eqn:Hle; [left|by right].
  exists m3, e2. split; [done|]. unfold bounded, canonical_mantissa.
  rewrite Hle, Hd3, fexp_normal by lia.
  rewrite andb_true_r. apply Z.eqb_eq. lia.
Qed.

Lemma iter_xO_pow (m k : positive) : Z.pos (Pos.iter xO m k) = Z.pos m * 2 ^ Z.pos k.
Proof.
  induction k as [|k IH] using Pos.peano_ind.
  - cbn. lia.
  - rewrite Pos.iter_succ, Pos2Z.inj_xO, IH, Pos2Z.inj_succ, Z.pow_succ_r; lia.
Qed.

Lemma binary_round_int (sx : bool) (m : positive) :
  (∃ m' e', binary_round prec emax sx m 0 = S754_finite sx m' e'
            ∧ bounded prec emax m' e' = true)
  ∨ binary_round prec emax sx m 0 = S754_infinity sx.
Proof.
  pose proof (digits2_bounds m) as [Hlo Hhi].
  unfold binary_round, shl_align. rewrite fexp_normal by lia.
  destruct (Z.pos (digits2_pos m) + 0 - 53 - 0) as [|k|k] eqn:Hk;
    try (apply binary_round_aux_normal; lia).
  apply binary_round_aux_normal; [|lia].
  apply Z.eq_le_incl. symmetry. apply digits2_unique. rewrite iter_xO_pow.
  replace (Z.pos k) with (53 - Z.pos (digits2_pos m)) by lia.
  set (d := Z.pos (digits2_pos m)) in *.
  assert (2 ^ (53 - 1) = 2 ^ (d - 1) * 2 ^ (53 - d)) as ->.
  { rewrite <- Z.pow_add_r by lia. f_equal. lia. }
  assert (2 ^ 53 = 2 ^ d * 2 ^ (53 - d)) as ->.
  { rewrite <- Z.pow_add_r by lia. f_equal. lia. }
  assert (0 < 2 ^ (53 - d)) by (apply Z.pow_pos_nonneg; lia).
  split; [apply Z.mul_le_mono_nonneg_r|apply Z.mul_lt_mono_pos_r]; lia.
Qed.

(** [float(z)] of a non-zero integer is a non-zero number (an infinity
    for an integer beyond the binary64 range), never a NaN. *)
Lemma Prim2SF_Z2F (z : Z) :
  z ≠ 0 → ∃ s, (∃ m e, Prim2SF (Z2F z) = S754_finite s m e)
               ∨ Prim2SF (Z2F z) = S754_infinity s.
Proof.
  intros Hz. unfold Z2F. destruct z as [|p|p]; [done| |]; cbn [binary_normalize].
  - exists false. destruct (binary_round_int false p) as [(m & e & -> & Hb)| ->].
    + left. exists m, e. by apply Prim2SF_SF2Prim.
    + right. by apply Prim2SF_SF2Prim.
  - exists true. destruct (binary_round_int true p) as [(m & e & -> & Hb)| ->].
    + left. exists m, e. by apply Prim2SF_SF2Prim.
    + right. by apply Prim2SF_SF2Prim.
Qed.

Lemma Z2F_not_nan (z : Z) : is_nan (Z2F z) = false.
Proof.
  destruct (Z.eq_dec z 0) as [->|Hz]; [done|].
  unfold is_nan. rewrite FloatAxioms.eqb_spec.
  destruct (Prim2SF_Z2F z Hz) as [s [(m & e & ->)| ->]]; unfold SFeqb; cbn.
  - rewrite Z.compare_refl, Pos.compare_cont_refl. by destruct s.
  - by destruct s.
Qed.

Lemma Z2F_eqb_zero (z : Z) : (Z2F z =? 0)%float = (z =? 0)%Z.
Proof.
  destruct (Z.eq_dec z 0) as [->|Hz]; [done|].
  rewrite FloatAxioms.eqb_spec.
  replace (z =? 0) with false by (symmetry; by apply Z.eqb_neq).
  destruct (Prim2SF_Z2F z Hz) as [s [(m & e & ->)| ->]]; by destruct s.
Qed.
End float_facts.

(** * The transform *)

Lemma zip_with_fmap_same {A B C D} (f : B → C → D) (g : A → B) (h : A → C) (l : list A) :
  zip_with f (g <$> l) (h <$> l) = (λ x, f (g x) (h x)) <$> l.
Proof. induction l as [|x l IH]; [done|]. csimpl. by rewrite IH. Qed.

Section derived_column_facts.
Lemma price_per_1000km_column_spec (out : Frame Norm) :
  price_per_1000km_column out =
  (λ r, guarded_price_per_1000km (price_sek r) (odometer_km r)) <$> out.*2.
Proof.
  unfold price_per_1000km_column.
  rewrite <- !list_fmap_compose, !zip_with_fmap_same, <- list_fmap_compose.
  apply list_fmap_ext. intros _ [i r] _. cbn [compose snd].
  destruct (price_sek r) as [p|], (odometer_km r) as [o|];
    cbn [astype_float guarded_price_per_1000km]; rewrite ?Z2F_not_nan, ?Z2F_eqb_zero; try done.
  by destruct (o =? 0)%Z.
Qed.

Lemma assign_price_per_1000km_fmap (f : Norm → float) (out : Frame Norm) :
  assign_price_per_1000km out (f <$> out.*2) =
  (λ r, (r.1, {| norm := r.2; price_per_1000km := f r.2 |})) <$> out.
Proof.
  unfold assign_price_per_1000km. rewrite <- list_fmap_compose.
  rewrite <- (list_fmap_id out) at 1. by rewrite zip_with_fmap_same.
Qed.
End derived_column_facts.

(** ** Frames and duplicate removal *)

Section frame_facts.
Context {A : Type}.

Lemma reset_index_fst (df : Frame A) : (reset_index df).*1 = seq 0 (length df).
Proof.
  unfold reset_index. rewrite fmap_imap.
  rewrite (imap_ext _ (λ i _, id i)) by done. by rewrite imap_seq_0, list_fmap_id.
Qed.

Lemma reset_index_snd (df : Frame A) : (reset_index df).*2 = df.*2.
Proof.
  unfold reset_index. rewrite fmap_imap. apply list_eq. intros i.
  by rewrite list_lookup_imap, list_lookup_fmap.
Qed.

Lemma filter_snd (P : A → Prop) `{!∀ x, Decision (P x)}
    `{!∀ r : nat * A, Decision (P r.2)} (df : Frame A) :
  (filter (λ r : nat * A, P r.2) df).*2 = filter P df.*2.
Proof.
  induction df as [|[i r] df IH]; [done|]. csimpl.
  destruct (decide (P r)).
  - rewrite !filter_cons_True by done. csimpl. by rewrite IH.
  - by rewrite !filter_cons_False.
Qed.

Context {K : Type} `{EqDecision K} (key : A → K).

Lemma drop_duplicates_last_snd (df : Frame A) :
  (drop_duplicates_last (λ r : nat * A, key r.2) df).*2 = drop_duplicates_last key df.*2.
Proof.
  induction df as [|[i r] df IH]; [done|]. cbn [drop_duplicates_last fmap list_fmap snd].
  replace ((λ r0 : nat * A, key r0.2) <$> df) with (key <$> df.*2)
    by by rewrite <- list_fmap_compose.
  destruct (decide (key r ∈ key <$> df.*2)); [done|]. by rewrite fmap_cons, IH.
Qed.

Lemma drop_duplicates_last_keys (l : list A) :
  key <$> drop_duplicates_last key l = remove_dups (key <$> l).
Proof.
  induction l as [|x l IH]; [done|]. cbn [drop_duplicates_last]. rewrite fmap_cons.
  cbn [remove_dups]. unfold decide_rel, decide.
  destruct (list_elem_of_dec (key x) (key <$> l)); [done|]. by rewrite fmap_cons, IH.
Qed.

Lemma drop_duplicates_last_sublist (l : list A) : drop_duplicates_last key l `sublist_of` l.
Proof.
  induction l as [|x l IH]; [done|]. cbn [drop_duplicates_last].
  destruct (decide (key x ∈ key <$> l)); by constructor.
Qed.

(** What survives the filter on a property of the key and the duplicate
    removal: the last row of each admitted key. *)
Lemma elem_of_drop_duplicates_last_filter (P : A → Prop) `{!∀ x, Decision (P x)}
    (l : list A) (x : A) :
  (∀ y z, key y = key z → P y → P z) →
  x ∈ drop_duplicates_last key (filter P l)
  ↔ P x ∧ ∃ l1 l2, l = l1 ++ x :: l2 ∧ key x ∉ key <$> l2.
Proof.
  intros HP. induction l as [|a l IH].
  { split; [by intros ?%elem_of_nil|]. by intros (_ & [|??] & ? & ? & _). }
  assert (P a → key a ∈ key <$> filter P l ↔ key a ∈ key <$> l) as Hkeys.
  { intros Ha. rewrite !list_elem_of_fmap. split; intros (y & Hy & Hin).
    - exists y. split; [done|]. by apply list_elem_of_filter in Hin as [_ ?].
    - exists y. split; [done|]. apply list_elem_of_filter. split; [|done]. by apply (HP a). }
  assert (x ∈ drop_duplicates_last key (filter P l) → P x ∧
          ∃ l1 l2, a :: l = l1 ++ x :: l2 ∧ key x ∉ key <$> l2) as Htail.
  { intros (? & l1 & l2 & -> & ?)%IH. split; [done|]. by exists (a :: l1), l2. }
  split.
  - destruct (decide (P a)) as [Ha|Ha].
    + rewrite filter_cons_True by done. cbn [drop_duplicates_last].
      destruct (decide (key a ∈ key <$> filter P l)) as [Hd|Hd]; [done|].
      intros [->|?]%elem_of_cons; [|by apply Htail].
      split; [done|]. exists [], l. split; [done|]. by rewrite <- Hkeys.
    + by rewrite filter_cons_False.
  - intros (Hx & l1 & l2 & Hl & Hlast).
    assert (x ∈ drop_duplicates_last key (filter P l) ∨ x = a ∧ key a ∉ key <$> l) as Hcase.
    { destruct l1 as [|b l1]; simplify_eq/=; [by right|].
      left. apply IH. split; [done|]. by exists l1, l2. }
    destruct (decide (P a)) as [Ha|Ha].
    + rewrite filter_cons_True by done. cbn [drop_duplicates_last].
      destruct (decide (key a ∈ key <$> filter P l)) as [Hd|Hd].
      * destruct Hcase as [?|[-> Hn]]; [done|]. by apply Hkeys in Hd.
      * apply elem_of_cons. destruct Hcase as [?|[-> _]]; [by right|by left].
    + rewrite filter_cons_False by done. by destruct Hcase as [?|[-> _]].
Qed.

(** The rows that survive the filter and the duplicate removal, by
    position: the admitted rows whose key no later row has, in the order of
    the table. *)
Lemma drop_duplicates_last_filter_positions (P : A → Prop) `{!∀ x, Decision (P x)}
    (l : list A) :
  (∀ y z, key y = key z → P y → P z) →
  ∃ positions : list nat,
    StronglySorted lt positions
    ∧ (∀ i, i ∈ positions ↔
            ∃ x, l !! i = Some x ∧ P x
                 ∧ ∀ j y, (i < j)%nat → l !! j = Some y → key y ≠ key x)
    ∧ Forall2 (λ i x, l !! i = Some x) positions (drop_duplicates_last key (filter P l)).
Proof.
  intros HP. induction l as [|a l (ps & Hsort & Hiff & Hrows)].
  { exists []. split_and!; [constructor| |constructor].
    intros i. split; [by intros ?%elem_of_nil|]. by intros (x & ? & _). }
  assert (StronglySorted lt (S <$> ps)) as Hsort'.
  { clear Hiff Hrows. induction Hsort as [|p ps _ IH Hp]; csimpl; constructor; [done|].
    apply Forall_fmap, list.Forall_forall. intros q Hq. cbn.
    rewrite list.Forall_forall in Hp. specialize (Hp q Hq). lia. }
  assert (Forall2 (λ i x, (a :: l) !! i = Some x) (S <$> ps)
            (drop_duplicates_last key (filter P l))) as Hrows'.
  { apply Forall2_fmap_l. clear Hiff Hsort Hsort'.
    induction Hrows; constructor; done. }
  assert (∀ i, i ∈ S <$> ps ↔
               ∃ i', i = S i'
                     ∧ ∃ x, l !! i' = Some x ∧ P x
                            ∧ ∀ j y, (i' < j)%nat → l !! j = Some y → key y ≠ key x)
    as Hiff'.
  { intros i. rewrite list_elem_of_fmap. split.
    - intros (i' & -> & Hi'). exists i'. split; [done|]. by apply Hiff.
    - intros (i' & -> & Hi'). exists i'. split; [done|]. by apply Hiff. }
  assert (∀ i', (∃ x, l !! i' = Some x ∧ P x
                      ∧ ∀ j y, (i' < j)%nat → l !! j = Some y → key y ≠ key x)
                ↔ ∃ x, (a :: l) !! S i' = Some x ∧ P x
                       ∧ ∀ j y, (S i' < j)%nat → (a :: l) !! j = Some y → key y ≠ key x)
    as Hshift.
  { intros i'. split; intros (x & Hx & HPx & Hlast); exists x; (split_and!; [done|done|]).
    - intros [|j] y Hj Hy; [lia|]. apply (Hlast j); [lia|done].
    - intros j y Hj Hy. apply (Hlast (S j)); [lia|done]. }
  assert (key a ∈ key <$> l ↔ ∃ j y, (0 < j)%nat ∧ (a :: l) !! j = Some y ∧ key y = key a)
    as Hlater.
  { rewrite list_elem_of_fmap. split.
    - intros (y & Hy & (j & Hj)%list_elem_of_lookup). exists (S j), y.
      split_and!; [lia|done|done].
    - intros ([|j] & y & Hj & Hy & Hk); [lia|]. exists y. split; [done|].
      by eapply list_elem_of_lookup_2. }
  assert (P a → key a ∈ key <$> filter P l ↔ key a ∈ key <$> l) as Hkeys.
  { intros Ha. rewrite !list_elem_of_fmap. split; intros (y & Hy & Hin).
    - exists y. split; [done|]. by apply list_elem_of_filter in Hin as [_ ?].
    - exists y. split; [done|]. apply list_elem_of_filter. split; [|done]. by apply (HP a). }
  destruct (decide (P a)) as [Ha|Ha].
  - rewrite filter_cons_True by done. cbn [drop_duplicates_last].
    destruct (decide (key a ∈ key <$> filter P l)) as [Hd|Hd].
    + exists (S <$> ps). split_and!; [done| |done].
      intros i. rewrite Hiff'. split.
      * intros (i' & -> & Hi'). by apply Hshift.
      * intros (x & Hx & HPx & Hlast). destruct i as [|i'].
        -- simplify_eq/=. apply Hkeys, Hlater in Hd as (j & y & Hj & Hy & Hk); [|done].
           by destruct (Hlast j y).
        -- exists i'. split; [done|]. apply Hshift. by exists x.
    + exists (0%nat :: (S <$> ps)). split_and!.
      * constructor; [done|]. apply Forall_fmap, list.Forall_forall. intros q _. cbn. lia.
      * intros i. rewrite elem_of_cons, Hiff'. split.
        -- intros [->|(i' & -> & Hi')]; [|by apply Hshift].
           exists a. split_and!; [done|done|]. intros j y Hj Hy Hk.
           apply Hd, Hkeys; [done|]. apply Hlater. by exists j, y.
        -- intros (x & Hx & HPx & Hlast). destruct i as [|i']; [by left|right].
           exists i'. split; [done|]. apply Hshift. by exists x.
      * by constructor.
  - rewrite filter_cons_False by done. exists (S <$> ps). split_and!; [done| |done].
    intros i. rewrite Hiff'. split.
    + intros (i' & -> & Hi'). by apply Hshift.
    + intros (x & Hx & HPx & Hlast). destruct i as [|i']; [by simplify_eq/=|].
      exists i'. split; [done|]. apply Hshift. by exists x.
Qed.
End frame_facts.

(** ** _normalize_columns and transform_cars *)

Lemma at_label_seq {A} (s : list (option A)) : at_label s <$> seq 0 (length s) = s.
Proof.
  apply list_eq. intros i. rewrite list_lookup_fmap. unfold at_label.
  destruct (s !! i) as [x|] eqn:Hi.
  - apply lookup_lt_Some in Hi as Hlt. by rewrite lookup_seq_lt, Nat.add_0_l; cbn; rewrite ?Hi.
  - apply lookup_ge_None in Hi. by rewrite lookup_seq_ge.
Qed.

Lemma length__safe_get (df : RawFrame) (col : str) : length (_safe_get df col) = len df.
Proof.
  unfold _safe_get. destruct (list_find _ _) as [[j ?]|].
  - by rewrite length_fmap.
  - by rewrite length_replicate.
Qed.

Section transform_facts.
Variable parse_number : str → option Num.
Variable float_repr : float → str.

(** A normalized table has the index of the raw table, and its url column is
    the cleaned "Url" column. *)
Lemma normalize_columns_Ok (df : RawFrame) (out : Frame Norm) :
  _normalize_columns parse_number float_repr df = Ok out →
  out.*1 = seq 0 (len df)
  ∧ url <$> out.*2 = clean_text float_repr <$> _safe_get df (lit "Url").
Proof.
  unfold _normalize_columns.
  destruct (foldM _ _ _NUMERIC_COLS) as [number|]; [|done].
  cbn [mbind result_bind]. intros [= <-]. split.
  - rewrite <- list_fmap_compose. rewrite <- (list_fmap_id (seq 0 (len df))) at 2.
    by apply list_fmap_ext.
  - rewrite <- !list_fmap_compose.
    transitivity (at_label (clean_text float_repr <$> _safe_get df (lit "Url"))
                    <$> seq 0 (len df)).
    + apply list_fmap_ext. intros _ i _. reflexivity.
    + rewrite <- (length__safe_get df (lit "Url")) at 1.
      rewrite <- (length_fmap (clean_text float_repr)). apply at_label_seq.
Qed.

(** The rows of the transformed table: the admitted rows, the last one of
    each url, with the index restarted. *)
Lemma transform_cars_Ok (df : RawFrame) (out : Frame Norm) :
  _normalize_columns parse_number float_repr df = Ok out →
  ∃ t, transform_cars parse_number float_repr df = Ok t
       ∧ t.*1 = seq 0 (length t)
       ∧ t.*2 = drop_duplicates_last (λ r : Car, url r)
                  (filter (λ r : Car, is_Some (url r)) (with_price_per_1000km <$> out.*2)).
Proof.
  intros Hn. unfold transform_cars. rewrite Hn. cbn [mbind result_bind].
  eexists. split; [reflexivity|]. split.
  - rewrite reset_index_fst. unfold reset_index. by rewrite length_imap.
  - rewrite reset_index_snd, (drop_duplicates_last_snd (λ r : Car, url r)).
    rewrite (filter_snd (λ r : Car, is_Some (url r))).
    rewrite price_per_1000km_column_spec.
    rewrite (assign_price_per_1000km_fmap
               (λ r, guarded_price_per_1000km (price_sek r) (odometer_km r))).
    by rewrite <- !list_fmap_compose.
Qed.

Lemma transform_cars_Raise (df : RawFrame) (e : exn) :
  _normalize_columns parse_number float_repr df = Raise e →
  transform_cars parse_number float_repr df = Raise e.
Proof. intros Hn. unfold transform_cars. by rewrite Hn. Qed.

Lemma url_with_price_per_1000km (l : list Norm) :
  (λ r : Car, url r) <$> (with_price_per_1000km <$> l) = url <$> l.
Proof. by rewrite <- list_fmap_compose. Qed.

(** C1 (as the code has it): every row's price_per_1000km is price_sek /
    odometer_km * 1000.0 rounded as numpy rounds to two decimals (the
    quotient scaled by 100, rounded to the nearest integer with ties to
    even, and scaled back) when both operands are present and the odometer
    is not zero, and is missing (NaN) when price_sek is missing,
    odometer_km is missing or odometer_km is zero.  The column is computed
    for every normalized row without an exception: transform_cars raises
    only what _normalize_columns raises. *)
Theorem price_per_1000km_guarded (df : RawFrame) :
  match _normalize_columns parse_number float_repr df with
  | Ok out =>
      price_per_1000km_column out
      = (λ r, guarded_price_per_1000km (price_sek r) (odometer_km r)) <$> out.*2
      ∧ ∃ t, transform_cars parse_number float_repr df = Ok t
             ∧ Forall price_per_1000km_as_computed t.*2
  | Raise e => transform_cars parse_number float_repr df = Raise e
  end.
Proof.
  destruct (_normalize_columns parse_number float_repr df) as [out|e] eqn:Hn;
    [|by apply transform_cars_Raise].
  split; [apply price_per_1000km_column_spec|].
  destruct (transform_cars_Ok df out Hn) as (t & Ht & _ & Hrows).
  exists t. split; [done|]. rewrite Hrows. apply list.Forall_forall. intros r Hr.
  eapply elem_of_sublist in Hr; [|apply drop_duplicates_last_sublist].
  apply list_elem_of_filter in Hr as [_ Hr].
  apply list_elem_of_fmap in Hr as (r0 & -> & _).
  unfold price_per_1000km_as_computed, with_price_per_1000km. cbn.
  split.
  - intros p o -> -> Ho. cbn. by apply Z.eqb_neq in Ho as ->.
  - intros [H|[H|H]]; rewrite H; [done|by destruct (price_sek r0)..].
Qed.

(** C2: among the rows sharing a cleaned url the transformed table has
    exactly one, the last in row order; its urls are unique, its rows keep
    their relative order, and its index restarts from zero.  By position:
    the rows of the transformed table are the rows of the cleaned table at
    the positions of the rows that have a url which no later row has, in
    increasing order of position. *)
Theorem transform_keeps_last_per_url (df : RawFrame) :
  match _normalize_columns parse_number float_repr df with
  | Ok out =>
      let cleaned := with_price_per_1000km <$> out.*2 in
      ∃ t, transform_cars parse_number float_repr df = Ok t
           ∧ t.*1 = seq 0 (length t)
           ∧ t.*2 `sublist_of` cleaned
           ∧ NoDup ((λ r : Car, url r) <$> t.*2)
           ∧ (∀ r : Car, r ∈ t.*2 ↔
                is_Some (url r)
                ∧ ∃ l1 l2, cleaned = l1 ++ r :: l2 ∧ url r ∉ (λ r : Car, url r) <$> l2)
           ∧ ∃ positions : list nat,
               StronglySorted lt positions
               ∧ (∀ i, i ∈ positions ↔ last_of_its_url cleaned i)
               ∧ Forall2 (λ i (r : Car), cleaned !! i = Some r) positions t.*2
  | Raise e => transform_cars parse_number float_repr df = Raise e
  end.
Proof.
  destruct (_normalize_columns parse_number float_repr df) as [out|e] eqn:Hn;
    [|by apply transform_cars_Raise].
  intros cleaned. destruct (transform_cars_Ok df out Hn) as (t & Ht & Hidx & Hrows).
  exists t. split_and!; [done|done|..]; rewrite Hrows.
  - etrans; [apply drop_duplicates_last_sublist|apply sublist_filter].
  - rewrite drop_duplicates_last_keys. apply NoDup_remove_dups.
  - intros r. apply (elem_of_drop_duplicates_last_filter (λ r : Car, url r)).
    by intros y z ->.
  - apply (drop_duplicates_last_filter_positions (λ r : Car, url r)
             (λ r : Car, is_Some (url r))).
    by intros y z ->.
Qed.

Lemma filter_is_Some_fmap {A B} (f : A → option B) (l : list A) :
  f <$> filter (λ x, is_Some (f x)) l = filter is_Some (f <$> l).
Proof.
  induction l as [|x l IH]; [done|]. csimpl. destruct (decide (is_Some (f x))).
  - rewrite !filter_cons_True by done. csimpl. by rewrite IH.
  - by rewrite !filter_cons_False.
Qed.

(** C6: a row whose url is missing after the cleanup (to text, stripped,
    empty as missing) is absent from the transformed table, and every
    present url is kept, once. *)
Theorem transform_admits_present_urls (df : RawFrame) :
  match _normalize_columns parse_number float_repr df with
  | Ok out =>
      let urls := clean_text float_repr <$> _safe_get df (lit "Url") in
      url <$> out.*2 = urls
      ∧ ∃ t, transform_cars parse_number float_repr df = Ok t
             ∧ (λ r : Car, url r) <$> t.*2 = remove_dups (filter is_Some urls)
             ∧ NoDup ((λ r : Car, url r) <$> t.*2)
             ∧ ∀ u, u ∈ (λ r : Car, url r) <$> t.*2 ↔ is_Some u ∧ u ∈ urls
  | Raise e => transform_cars parse_number float_repr df = Raise e
  end.
Proof.
  destruct (_normalize_columns parse_number float_repr df) as [out|e] eqn:Hn;
    [|by apply transform_cars_Raise].
  intros urls. destruct (normalize_columns_Ok df out Hn) as [_ Hurl].
  split; [done|].
  destruct (transform_cars_Ok df out Hn) as (t & Ht & _ & Hrows).
  assert ((λ r : Car, url r) <$> t.*2 = remove_dups (filter is_Some urls)) as Heq.
  { rewrite Hrows, drop_duplicates_last_keys.
    rewrite (filter_is_Some_fmap (λ r : Car, url r)), url_with_price_per_1000km.
    by rewrite Hurl. }
  exists t. split_and!; [done|done|..]; rewrite Heq.
  - apply NoDup_remove_dups.
  - intros u. by rewrite elem_of_remove_dups, list_elem_of_filter.
Qed.

(** C7 (the code departs from it): a numeric cell that holds a number with a
    fraction is not coerced to missing; astype("Int64") refuses it and the
    whole transform raises TypeError. *)
Theorem fractional_number_aborts_transform :
  transform_cars parse_number float_repr df_fractional_price = Raise TypeError.
Proof. vm_compute. reflexivity. Qed.

(** Text that pandas cannot read as a number does become missing. *)
Lemma unparseable_text_becomes_missing (s : str) :
  parse_number s = None →
  coerce_Int64 parse_number [CText s] = Ok [None].
Proof. intros Hs. unfold coerce_Int64, to_numeric. cbn. by rewrite Hs. Qed.
End transform_facts.

(** * The load *)

Lemma traverse_Ok {A B} (f : A → result B) (l : list A) (out : list B) :
  traverse f l = Ok out → Forall2 (λ x y, f x = Ok y) l out.
Proof.
  revert out. induction l as [|x l IH]; intros out; cbn [traverse].
  - intros [= <-]. constructor.
  - destruct (f x) as [y|] eqn:Hx; cbn [mbind result_bind]; [|done].
    destruct (traverse f l) as [ys|]; cbn [mbind result_bind]; [|done].
    intros [= <-]. constructor; [done|]. by apply IH.
Qed.

Lemma traverse_fmap_Ok {A B C} (f : A → result B) (h : C → A) (g : C → B) (l : list C) :
  (∀ x, f (h x) = Ok (g x)) → traverse f (h <$> l) = Ok (g <$> l).
Proof.
  intros Hf. induction l as [|x l IH]; [done|].
  csimpl. by rewrite Hf, IH.
Qed.

Section convert_facts.
Variable float_repr : float → str.
Variable int_of_str : str → option Z.
Variable float_of_str : str → option float.

Lemma none_missing {A} (v : Value) (cast : Value → result A) :
  semantically_missing v → _none v cast = Ok None.
Proof. by intros [->|[->|(f & -> & Hf)]]; unfold _none; cbn; rewrite ?Hf. Qed.

Lemma none_present {A} (v : Value) (cast : Value → result A) :
  _none v cast = Ok None → semantically_missing v.
Proof.
  unfold _none, semantically_missing. destruct v as [| |z|f|s]; cbn; eauto.
  - by destruct (cast (VInt z)).
  - destruct (is_nan f) eqn:Hf; cbn; [eauto|]. by destruct (cast (VFloat f)).
  - by destruct (cast (VStr s)).
Qed.

(** The conversion of a transformed row: it cannot fail, and it is the
    row with [None] for every missing value. *)
Lemma convert_row_tuple_of (now : str) (r : Car) :
  convert_row float_repr int_of_str float_of_str now (tuple_of r) = Ok (to_db_row now r).
Proof.
  destruct r as [[u g my p o fu b h] x]. unfold convert_row, to_db_row, tuple_of.
  cbn [item lookup list_lookup mbind result_bind norm url regnr model_year price_sek
       odometer_km fuel body_type horsepower price_per_1000km].
  destruct u, g, my, p, o, fu, b, h; unfold _none; cbn; by destruct (is_nan x).
Qed.

Lemma convert_transformed (df : Frame Car) (clock : Clock) :
  _convert_row_for_db float_repr int_of_str float_of_str (itertuples df) clock
  = (Ok (to_db_row (clock 0%nat) <$> df.*2), λ n, clock (S n)).
Proof.
  unfold _convert_row_for_db, itertuples, now_isoformat. f_equal.
  apply traverse_fmap_Ok. intros r. apply convert_row_tuple_of.
Qed.

(** C9: a value that is missing under any of its three encodings ([None],
    a float NaN, [pd.NA]) is converted to [None], whatever the cast, and
    only such a value is; so the parameters of a transformed row carry
    [None] as their one missing value, and never a NaN. *)
Theorem none_collapses_missing_encodings :
  (∀ A (cast : Value → result A) (v : Value),
     _none v cast = Ok None ↔ semantically_missing v)
  ∧ (∀ now r, convert_row float_repr int_of_str float_of_str now (tuple_of r)
              = Ok (to_db_row now r))
  ∧ (∀ now r f, db_price_per_1000km (to_db_row now r) = Some f → is_nan f = false).
Proof.
  split_and!.
  - intros A cast v. split; [apply none_present|apply none_missing].
  - apply convert_row_tuple_of.
  - intros now r f. cbn. destruct (is_nan (price_per_1000km r)) eqn:Hn; [done|].
    by intros [= <-].
Qed.

Lemma convert_row_load_ts (now : str) (r : list Value) (row : DbRow) :
  convert_row float_repr int_of_str float_of_str now r = Ok row → load_ts row = Some now.
Proof.
  unfold convert_row. intros H.
  repeat match type of H with
         | context [mbind _ ?m] =>
             destruct m eqn:?; cbn [mbind result_bind] in H; [|done]
         end.
  by injection H as <-.
Qed.

(** C10: the clock is read once per call, before the rows are converted,
    and every converted row carries that one reading as its load_ts. *)
Theorem one_load_ts_per_call (rows : list (list Value)) (clock clock' : Clock)
    (out : list DbRow) :
  _convert_row_for_db float_repr int_of_str float_of_str rows clock = (Ok out, clock') →
  clock' = (λ n, clock (S n))
  ∧ length out = length rows
  ∧ Forall (λ row, load_ts row = Some (clock 0%nat)) out.
Proof.
  unfold _convert_row_for_db, now_isoformat. intros [= Ht <-].
  apply traverse_Ok in Ht. split_and!; [done|symmetry; by eapply Forall2_length|].
  induction Ht as [|r row rows out Hr _ IH]; constructor; [|done].
  by eapply convert_row_load_ts.
Qed.
End convert_facts.

(** ** upsert_cars *)

Lemma run_statements_apply_all (t : Table) (rows : list DbRow) :
  match apply_all t rows with
  | Ok t' => run_statements t rows = (t', Ok ())
  | Raise e => (run_statements t rows).2 = Raise e
  end.
Proof.
  revert t. induction rows as [|r rows IH]; intros t; [done|].
  cbn [apply_all run_statements]. destruct (UPSERT_SQL t r) as [t'|e]; [|done].
  apply IH.
Qed.

Lemma upsert_cars_apply_all (conn : Conn) (rows : list DbRow) :
  match apply_all (view conn) rows with
  | Ok t =>
      upsert_cars conn rows
      = (match rows with [] => conn | _ => {| committed := t; pending := None |} end,
         Ok (length rows))
  | Raise e => upsert_cars conn rows = (rollback conn, Raise e)
  end.
Proof.
  destruct rows as [|r rows]; [done|].
  pose proof (run_statements_apply_all (view conn) (r :: rows)) as Hrun.
  unfold upsert_cars, executemany.
  destruct (apply_all (view conn) (r :: rows)) as [t|e].
  - by rewrite Hrun.
  - destruct (run_statements (view conn) (r :: rows)) as [t res]. cbn in Hrun. by subst.
Qed.

(** C5: a batch is applied as one unit.  Either every statement succeeds
    and the table with all rows applied is committed, or a statement fails
    (a check or a uniqueness constraint, say), its error reaches the caller
    and the committed table is the one from before the call; no transaction
    stays open. *)
Theorem upsert_cars_all_or_nothing (conn : Conn) (rows : list DbRow) :
  (∃ t, apply_all (view conn) rows = Ok t
        ∧ upsert_cars conn rows
          = (match rows with [] => conn | _ => {| committed := t; pending := None |} end,
             Ok (length rows)))
  ∨ (∃ e, apply_all (view conn) rows = Raise e
          ∧ upsert_cars conn rows
            = ({| committed := committed conn; pending := None |}, Raise e)).
Proof.
  pose proof (upsert_cars_apply_all conn rows) as H.
  destruct (apply_all (view conn) rows) as [t|e].
  - left. by exists t.
  - right. by exists e.
Qed.

Section load_facts.
Variable float_repr : float → str.
Variable int_of_str : str → option Z.
Variable float_of_str : str → option float.

(** C8: upsert_cars returns the number of rows submitted, whatever the
    statements changed; on no rows it returns 0 and leaves the connection as
    it was, and load_cars of an empty table returns 0 and leaves the store
    as it was. *)
Theorem upsert_cars_counts_submitted (conn : Conn) (rows : list DbRow) :
  upsert_cars conn [] = (conn, Ok 0%nat)
  ∧ match apply_all (view conn) rows with
    | Ok _ => (upsert_cars conn rows).2 = Ok (length rows)
    | Raise e => (upsert_cars conn rows).2 = Raise e
    end
  ∧ ∀ db clock,
      load_cars float_repr int_of_str float_of_str [] db clock
      = (db, (λ n, clock (S n)), Ok 0%nat).
Proof.
  split_and!; [done| |done].
  pose proof (upsert_cars_apply_all conn rows) as H.
  destruct (apply_all (view conn) rows); by rewrite H.
Qed.
End load_facts.

(** C4: when the url of the incoming row is already stored, a successful
    UPSERT leaves the table with that one row replaced: every non-key field
    (regnr, model_year, price_sek, odometer_km, fuel, body_type, horsepower,
    price_per_1000km, load_ts) now holds the incoming value, a NULL
    included, and no other row changes. *)
Theorem upsert_conflict_overwrites (t t' : Table) (params old : DbRow) (i : nat) :
  url_conflict t (db_url params) = Some (i, old) →
  UPSERT_SQL t params = Ok t' →
  t !! i = Some old ∧ db_url old = db_url params
  ∧ ∃ new, t' = <[i := new]> t ∧ t' !! i = Some new
      ∧ db_url new = db_url old
      ∧ db_regnr new = db_regnr params
      ∧ db_model_year new = db_model_year params
      ∧ db_price_sek new = db_price_sek params
      ∧ db_odometer_km new = db_odometer_km params
      ∧ db_fuel new = db_fuel params
      ∧ db_body_type new = db_body_type params
      ∧ db_horsepower new = db_horsepower params
      ∧ db_price_per_1000km new = nan_as_null (db_price_per_1000km params)
      ∧ load_ts new = load_ts params.
Proof.
  intros Hc. unfold UPSERT_SQL, bind_parameters.
  destruct (_ && _); cbn [mbind result_bind]; [|done].
  destruct (negb _); [done|]. change (db_url (bound params)) with (db_url params).
  rewrite Hc. destruct (regnr_taken _ _); [done|]. intros [= <-].
  unfold url_conflict in Hc. destruct (db_url params) as [u|] eqn:Hu; [|done].
  apply list_find_Some in Hc as (Hi & Hold & _).
  split_and!; [done|done|]. eexists. split_and!; try reflexivity.
  apply list_lookup_insert_eq. by eapply lookup_lt_Some.
Qed.

(** ** The store under repeated loads *)

Lemma elem_of_delete_lookup {A} (l : list A) (i j : nat) (y : A) :
  l !! j = Some y → j ≠ i → y ∈ delete i l.
Proof.
  revert i j. induction l as [|x l IH]; intros i j; [done|].
  destruct i as [|i], j as [|j]; cbn; intros Hj Hne; try done.
  - by eapply list_elem_of_lookup_2.
  - injection Hj as ->. apply elem_of_cons. by left.
  - apply elem_of_cons. right. eapply IH; [done|lia].
Qed.

Lemma nan_as_null_idemp (f : option float) : nan_as_null (nan_as_null f) = nan_as_null f.
Proof. destruct f as [f|]; [|done]. cbn. destruct (is_nan f) eqn:Hf; [done|]. cbn. by rewrite Hf. Qed.

Lemma bind_parameters_bound (p r : DbRow) :
  bind_parameters p = Ok r → r = bound p ∧ bind_parameters r = Ok r.
Proof.
  unfold bind_parameters. destruct (_ && _) eqn:Hb; [|done]. intros [= <-].
  split; [done|]. cbn [bound db_model_year db_price_sek db_odometer_km db_horsepower].
  rewrite Hb. f_equal. unfold bound. cbn. by rewrite nan_as_null_idemp.
Qed.

Lemma do_update_same_url (old r : DbRow) : db_url old = db_url r → do_update old r = r.
Proof. destruct r. unfold do_update. cbn. by intros ->. Qed.

(** The two ways a statement succeeds. *)
Lemma UPSERT_SQL_Ok (t t' : Table) (p : DbRow) :
  UPSERT_SQL t p = Ok t' →
  bind_parameters (bound p) = Ok (bound p) ∧ DDL_checks (bound p) = true
  ∧ ((∃ i old, t !! i = Some old ∧ is_Some (db_url p) ∧ db_url old = db_url p
               ∧ regnr_taken (delete i t) (db_regnr p) = false
               ∧ t' = <[i := bound p]> t)
     ∨ ((is_Some (db_url p) → db_url p ∉ db_url <$> t)
        ∧ regnr_taken t (db_regnr p) = false ∧ t' = t ++ [bound p])).
Proof.
  unfold UPSERT_SQL. destruct (bind_parameters p) as [r|] eqn:Hb; [|done].
  apply bind_parameters_bound in Hb as [-> Hb]. cbn [mbind result_bind].
  destruct (DDL_checks (bound p)) eqn:Hc; [|done]. cbn [negb].
  change (db_url (bound p)) with (db_url p). change (db_regnr (bound p)) with (db_regnr p).
  intros H. split_and!; [done|done|].
  unfold url_conflict in H. destruct (db_url p) as [u|] eqn:Hu.
  - destruct (list_find _ t) as [[i old]|] eqn:Hf.
    + destruct (regnr_taken _ _) eqn:Hr; [done|]. injection H as <-.
      apply list_find_Some in Hf as (Hi & Hold & _).
      left. exists i, old. split_and!; [done|done|done|done|].
      f_equal. apply do_update_same_url. by rewrite Hold.
    + destruct (regnr_taken _ _) eqn:Hr; [done|]. injection H as <-.
      right. split_and!; [|done|done]. intros _ (x & Hx & Hin)%list_elem_of_fmap.
      apply list_find_None in Hf. rewrite list.Forall_forall in Hf. by apply (Hf x).
  - destruct (regnr_taken _ _) eqn:Hr; [done|]. injection H as <-.
    right. split_and!; [|done|done]. by intros [? [=]].
Qed.

Lemma regnr_taken_false (t : Table) (g : option str) (y : DbRow) :
  regnr_taken t g = false → y ∈ t → is_Some g → db_regnr y ≠ g.
Proof.
  unfold regnr_taken. intros Hr%bool_decide_eq_false Hy Hg <-.
  apply Hr. split; [done|]. by apply list_elem_of_fmap_2.
Qed.

Lemma unique_on_snoc (col : DbRow → option str) (t : Table) (r : DbRow) :
  unique_on col t → (is_Some (col r) → col r ∉ col <$> t) → unique_on col (t ++ [r]).
Proof.
  intros Hu Hr i j x y Hi Hj Hx Hxy.
  apply lookup_snoc_Some in Hi as [[? Hi]|[-> <-]], Hj as [[? Hj]|[-> <-]].
  - by eapply Hu.
  - exfalso. apply Hr; [by rewrite <- Hxy|]. rewrite <- Hxy.
    apply list_elem_of_fmap_2. by eapply list_elem_of_lookup_2.
  - exfalso. apply Hr; [done|]. rewrite Hxy.
    apply list_elem_of_fmap_2. by eapply list_elem_of_lookup_2.
  - done.
Qed.

Lemma unique_on_insert (col : DbRow → option str) (t : Table) (i : nat) (r : DbRow) :
  unique_on col t →
  (∀ j y, t !! j = Some y → j ≠ i → is_Some (col r) → col y ≠ col r) →
  unique_on col (<[i := r]> t).
Proof.
  intros Hu Hr j k x y Hj Hk Hx Hxy.
  apply list_lookup_insert_Some in Hj as [(-> & <- & ?)|[? Hj]],
    Hk as [(-> & <- & ?)|[? Hk]]; try done.
  - exfalso. by eapply (Hr k y).
  - exfalso. eapply (Hr j x); [done|done|by rewrite <- Hxy|done].
  - by eapply Hu.
Qed.

(** The constraints of DDL hold after every successful statement. *)
Lemma UPSERT_SQL_stored_ok (t t' : Table) (p : DbRow) :
  stored_ok t → UPSERT_SQL t p = Ok t' → stored_ok t'.
Proof.
  intros (Hurl & Hreg & Hrows) (Hb & Hc & H)%UPSERT_SQL_Ok.
  destruct H as [(i & old & Hi & Hsome & Hold & Hr & ->)|(Hnew & Hr & ->)].
  - split_and!.
    + apply unique_on_insert; [done|]. intros j y Hj Hne _ Hy. apply Hne.
      eapply (Hurl j i y old); [done|done| |]; by rewrite Hy, ?Hold.
    + apply unique_on_insert; [done|]. intros j y Hj Hne Hg.
      eapply regnr_taken_false; [done| |done]. by eapply elem_of_delete_lookup.
    + by apply Forall_insert.
  - split_and!.
    + by apply unique_on_snoc.
    + apply unique_on_snoc; [done|]. intros Hg Hin.
      apply list_elem_of_fmap in Hin as (y & Hy & Hin).
      by eapply (regnr_taken_false t (db_regnr p) y).
    + apply Forall_app. split; [done|]. by constructor.
Qed.

Lemma apply_all_stored_ok (rows : list DbRow) (t t' : Table) :
  stored_ok t → apply_all t rows = Ok t' → stored_ok t'.
Proof.
  revert t. induction rows as [|p rows IH]; intros t Ht; cbn [apply_all].
  - by intros [= <-].
  - destruct (UPSERT_SQL t p) as [t1|] eqn:Hp; [|done]. cbn [mbind result_bind].
    apply IH. by eapply UPSERT_SQL_stored_ok.
Qed.

Lemma stored_ok_nil : stored_ok [].
Proof. split_and!; [by intros ???? [=]..|constructor]. Qed.

Lemma elem_of_delete_inv {A} (l : list A) (i : nat) (y : A) :
  y ∈ delete i l → ∃ j, j ≠ i ∧ l !! j = Some y.
Proof.
  revert i. induction l as [|x l IH]; intros i; [by intros ?%elem_of_nil|].
  destruct i as [|i]; cbn.
  - intros (j & Hj)%list_elem_of_lookup. by exists (S j).
  - intros [->|Hy]%elem_of_cons; [by exists 0%nat|].
    destruct (IH _ Hy) as (j & ? & ?). exists (S j). split; [lia|done].
Qed.

Lemma UPSERT_SQL_keeps (t t' : Table) (p x : DbRow) :
  UPSERT_SQL t p = Ok t' → x ∈ t → db_url x ≠ db_url p → x ∈ t'.
Proof.
  intros (_ & _ & H)%UPSERT_SQL_Ok Hx Hne.
  destruct H as [(i & old & Hi & _ & Hold & _ & ->)|(_ & _ & ->)].
  - apply list_elem_of_lookup in Hx as (j & Hj).
    apply (list_elem_of_lookup_2 _ j). rewrite list_lookup_insert_ne; [done|].
    intros ->. rewrite Hi in Hj. injection Hj as ->. by rewrite Hold in Hne.
  - apply elem_of_app. by left.
Qed.

Lemma UPSERT_SQL_adds (t t' : Table) (p : DbRow) :
  UPSERT_SQL t p = Ok t' → bound p ∈ t'.
Proof.
  intros (_ & _ & H)%UPSERT_SQL_Ok.
  destruct H as [(i & old & Hi & _ & _ & _ & ->)|(_ & _ & ->)].
  - apply (list_elem_of_lookup_2 _ i). apply list_lookup_insert_eq. by eapply lookup_lt_Some.
  - apply elem_of_app. right. by apply list_elem_of_singleton.
Qed.

Lemma apply_all_keeps (rows : list DbRow) (t t' : Table) (x : DbRow) :
  apply_all t rows = Ok t' → x ∈ t → db_url x ∉ db_url <$> rows → x ∈ t'.
Proof.
  revert t. induction rows as [|p rows IH]; intros t; cbn [apply_all].
  - by intros [= <-].
  - destruct (UPSERT_SQL t p) as [t1|] eqn:Hp; [|done]. cbn [mbind result_bind].
    intros Hall Hx Hnin. rewrite fmap_cons, not_elem_of_cons in Hnin.
    destruct Hnin as [Hne Hnin]. eapply IH; [done| |done]. by eapply UPSERT_SQL_keeps.
Qed.

(** After a batch of distinct urls every row of the batch is stored. *)
Lemma apply_all_contains (rows : list DbRow) (t t' : Table) :
  apply_all t rows = Ok t' → NoDup (db_url <$> rows) → Forall (λ p, bound p ∈ t') rows.
Proof.
  revert t. induction rows as [|p rows IH]; intros t; cbn [apply_all]; [constructor|].
  destruct (UPSERT_SQL t p) as [t1|] eqn:Hp; [|done]. cbn [mbind result_bind].
  intros Hall Hnd. rewrite fmap_cons, list.NoDup_cons in Hnd. destruct Hnd as [Hnin Hnd].
  constructor; [|by eapply IH].
  eapply apply_all_keeps; [done|by eapply UPSERT_SQL_adds|done].
Qed.

Lemma set_load_ts_same (r : DbRow) : set_load_ts (load_ts r) r = r.
Proof. by destruct r. Qed.

(** Submitting a stored row again, with a new stamp, only restamps it. *)
Lemma UPSERT_SQL_restamp (s : Table) (x : DbRow) (now : str) :
  stored_ok s → x ∈ s → is_Some (db_url x) →
  UPSERT_SQL s (set_load_ts (Some now) x) = Ok (restamp now [db_url x] s).
Proof.
  intros (Hurl & Hreg & Hrows) Hx Hu.
  rewrite list.Forall_forall in Hrows. destruct (Hrows x Hx) as [Hb Hc].
  apply list_elem_of_lookup in Hx as (i & Hi).
  unfold UPSERT_SQL.
  assert (bind_parameters (set_load_ts (Some now) x) = Ok (set_load_ts (Some now) x)) as ->.
  { unfold bind_parameters in *. cbn [set_load_ts db_model_year db_price_sek
      db_odometer_km db_horsepower]. destruct (_ && _); [|done].
    injection Hb as Hb. f_equal. rewrite <- Hb at 2. done. }
  cbn [mbind result_bind].
  assert (DDL_checks (set_load_ts (Some now) x) = true) as ->.
  { unfold DDL_checks in *. cbn [set_load_ts db_model_year db_price_sek db_odometer_km
      db_horsepower db_price_per_1000km load_ts].
    apply andb_true_iff in Hc as [-> _]. done. }
  cbn [negb]. change (db_url (set_load_ts (Some now) x)) with (db_url x).
  change (db_regnr (set_load_ts (Some now) x)) with (db_regnr x).
  assert (url_conflict s (db_url x) = Some (i, x)) as ->.
  { unfold url_conflict. destruct (db_url x) as [u|] eqn:Hux; [|by destruct Hu].
    destruct (list_find (λ r, db_url r = Some u) s) as [[j y]|] eqn:Hf.
    - apply list_find_Some in Hf as (Hj & Hy & _).
      assert (j = i) as ->; [|by simplify_eq].
      eapply (Hurl j i y x); [done|done|by rewrite Hy|by rewrite Hy, Hux].
    - apply list_find_None in Hf. rewrite list.Forall_forall in Hf.
      destruct (Hf x); [by eapply list_elem_of_lookup_2|done]. }
  assert (regnr_taken (delete i s) (db_regnr x) = false) as ->.
  { apply bool_decide_eq_false. intros [Hg (y & Hy & Hin)%list_elem_of_fmap].
    apply elem_of_delete_inv in Hin as (j & Hne & Hj).
    apply Hne. symmetry. by eapply (Hreg i j x y). }
  f_equal. rewrite do_update_same_url by done.
  apply list_eq. intros k. unfold restamp. rewrite list_lookup_fmap.
  destruct (decide (i = k)) as [<-|Hne].
  - rewrite list_lookup_insert_eq by by eapply lookup_lt_Some.
    rewrite Hi. cbn. rewrite decide_True; [done|]. by apply list_elem_of_singleton.
  - rewrite list_lookup_insert_ne by done.
    destruct (s !! k) as [y|] eqn:Hk; [|done]. cbn. rewrite decide_False; [done|].
    intros Hy%list_elem_of_singleton. apply Hne.
    eapply (Hurl i k x y); [done|done|done|done].
Qed.

Lemma restamp_nil (now : str) (s : Table) : restamp now [] s = s.
Proof.
  unfold restamp. rewrite <- (list_fmap_id s) at 2. apply list_fmap_ext.
  intros _ r _. rewrite decide_False; [done|]. apply not_elem_of_nil.
Qed.

Lemma restamp_cons (now : str) (u : option str) (us : list (option str)) (s : Table) :
  restamp now us (restamp now [u] s) = restamp now (u :: us) s.
Proof.
  unfold restamp. rewrite <- list_fmap_compose. apply list_fmap_ext.
  intros _ r _. cbn [compose].
  destruct (decide (db_url r ∈ [u])) as [Hu|Hu].
  - change (db_url (set_load_ts (Some now) r)) with (db_url r).
    apply list_elem_of_singleton in Hu.
    rewrite (decide_True (P := db_url r ∈ u :: us)) by (rewrite Hu; apply elem_of_cons; by left).
    by destruct (decide (db_url r ∈ us)).
  - rewrite list_elem_of_singleton in Hu.
    destruct (decide (db_url r ∈ us)) as [Hus|Hus].
    + rewrite decide_True; [done|]. apply elem_of_cons. by right.
    + rewrite decide_False; [done|]. by intros [?|?]%elem_of_cons.
Qed.

(** Submitting again a batch of stored rows, with a new stamp, restamps
    those rows and changes nothing else. *)
Lemma apply_all_restamp (now : str) (xs : list DbRow) (s : Table) :
  stored_ok s → NoDup (db_url <$> xs) →
  Forall (λ x, is_Some (db_url x) ∧ x ∈ s) xs →
  apply_all s (set_load_ts (Some now) <$> xs) = Ok (restamp now (db_url <$> xs) s).
Proof.
  revert s. induction xs as [|x xs IH]; intros s Hs Hnd Hxs.
  { cbn. by rewrite restamp_nil. }
  rewrite fmap_cons, list.NoDup_cons in Hnd. destruct Hnd as [Hnin Hnd].
  apply list.Forall_cons in Hxs as [[Hu Hx] Hxs].
  rewrite !fmap_cons. cbn [apply_all].
  pose proof (UPSERT_SQL_restamp s x now Hs Hx Hu) as Hstep. rewrite Hstep.
  cbn [mbind result_bind]. rewrite IH, restamp_cons; [done| |done|].
  - by eapply UPSERT_SQL_stored_ok.
  - rewrite list.Forall_forall in Hxs. apply list.Forall_forall. intros y Hy.
    destruct (Hxs y Hy) as [Hyu Hys]. split; [done|].
    unfold restamp. apply list_elem_of_fmap. exists y. split; [|done].
    rewrite decide_False; [done|]. intros Heq%list_elem_of_singleton.
    apply Hnin. rewrite <- Heq. by apply list_elem_of_fmap_2.
Qed.

Lemma restamp_same (now : str) (xs : list DbRow) (s : Table) :
  stored_ok s →
  Forall (λ x, is_Some (db_url x) ∧ x ∈ s ∧ load_ts x = Some now) xs →
  restamp now (db_url <$> xs) s = s.
Proof.
  intros (Hurl & _ & _) Hxs. rewrite list.Forall_forall in Hxs.
  unfold restamp. rewrite <- (list_fmap_id s) at 2. apply list_fmap_ext.
  intros k r Hk. destruct (decide _) as [Hin|]; [|done].
  apply list_elem_of_fmap in Hin as (x & Hx & Hin).
  destruct (Hxs x Hin) as (Hu & (j & Hj)%list_elem_of_lookup & Hts).
  assert (j = k) as -> by (eapply (Hurl j k x r); by rewrite ?Hx).
  assert (r = x) as -> by congruence. rewrite <- Hts. apply set_load_ts_same.
Qed.

Lemma restamp_forget (now : str) (us : list (option str)) (s : Table) :
  forget_load_ts <$> restamp now us s = forget_load_ts <$> s.
Proof.
  unfold restamp. rewrite <- list_fmap_compose. apply list_fmap_ext.
  intros _ r _. cbn [compose]. by destruct (decide _).
Qed.

Lemma bound_to_db_row (now : str) (r : Car) : bound (to_db_row now r) = to_db_row now r.
Proof.
  unfold bound, to_db_row. cbn. f_equal.
  destruct (is_nan (price_per_1000km r)) eqn:Hn; [done|]. cbn. by rewrite Hn.
Qed.

Section reload_facts.
Variable float_repr : float → str.
Variable int_of_str : str → option Z.
Variable float_of_str : str → option float.

(** load_cars on a transformed table: the batch of its stamped rows, as one
    unit. *)
Lemma load_cars_transformed (df : Frame Car) (db : Table) (clock : Clock) :
  load_cars float_repr int_of_str float_of_str (itertuples df) db clock
  = match apply_all db (to_db_row (clock 0%nat) <$> df.*2) with
    | Ok t => (t, λ n, clock (S n), Ok (length df))
    | Raise e => (db, λ n, clock (S n), Raise e)
    end.
Proof.
  unfold load_cars. rewrite convert_transformed.
  pose proof (upsert_cars_apply_all (init_schema (get_conn db))
                (to_db_row (clock 0%nat) <$> df.*2)) as Hup.
  change (view (init_schema (get_conn db))) with db in Hup.
  destruct (apply_all db _) as [t|e] eqn:Hall; rewrite Hup; [|done].
  rewrite !length_fmap. destruct df as [|r df]; [|done].
  cbn in Hall. by injection Hall as <-.
Qed.

(** C3 (amended): re-loading an identical NormalizedRecord batch succeeds,
    keeps the number of stored rows and every stored field except load_ts,
    and stamps the rows of the batch with the second load's timestamp; the
    store is unchanged exactly when both loads read the same timestamp. *)
Theorem reload_keeps_all_but_load_ts (df : Frame Car) (db db1 : Table)
    (clock clock1 : Clock) (n : nat) :
  stored_ok db →
  Forall (λ r : Car, is_Some (url r)) df.*2 →
  NoDup ((λ r : Car, url r) <$> df.*2) →
  load_cars float_repr int_of_str float_of_str (itertuples df) db clock
    = (db1, clock1, Ok n) →
  ∃ db2,
    load_cars float_repr int_of_str float_of_str (itertuples df) db1 clock1
      = (db2, λ k, clock1 (S k), Ok n)
    ∧ db2 = restamp (clock1 0%nat) ((λ r : Car, url r) <$> df.*2) db1
    ∧ length db2 = length db1
    ∧ forget_load_ts <$> db2 = forget_load_ts <$> db1
    ∧ (clock1 0%nat = clock 0%nat → db2 = db1).
Proof.
  intros Hdb Hurls Hnd. rewrite !load_cars_transformed.
  destruct (apply_all db _) as [t|e] eqn:Hall; [|done]. intros [= -> <- <-].
  set (now1 := clock 0%nat) in *.
  set (xs := to_db_row now1 <$> df.*2) in *.
  assert (stored_ok db1) as Hdb1 by by eapply apply_all_stored_ok.
  assert (db_url <$> xs = (λ r : Car, url r) <$> df.*2) as Hxu
    by (unfold xs; by rewrite <- list_fmap_compose).
  assert (Forall (λ x, is_Some (db_url x) ∧ x ∈ db1 ∧ load_ts x = Some now1) xs) as Hxs.
  { apply apply_all_contains in Hall; [|by rewrite Hxu].
    rewrite list.Forall_forall in Hall. rewrite list.Forall_forall in Hurls.
    apply list.Forall_forall.
    intros x Hx. pose proof (Hall x Hx) as Hin.
    apply list_elem_of_fmap in Hx as (r & -> & Hr).
    rewrite bound_to_db_row in Hin. split_and!; [by apply Hurls|done|done]. }
  assert (∀ now, to_db_row now <$> df.*2 = set_load_ts (Some now) <$> xs) as ->.
  { intros now. unfold xs.
    by rewrite <- (list_fmap_compose (to_db_row now1) (set_load_ts (Some now))). }
  rewrite apply_all_restamp; [|done|by rewrite Hxu|].
  2:{ eapply list.Forall_impl; [exact Hxs|]. by intros x (? & ? & _). }
  rewrite Hxu. eexists. split_and!; [reflexivity|reflexivity|..].
  - unfold restamp. by rewrite length_fmap.
  - apply restamp_forget.
  - intros ->. rewrite <- Hxu. by apply restamp_same.
Qed.
End reload_facts.

(** * Further properties of the transform *)

(** ** Integers through float64 *)

Section float_exact.
Local Open Scope Z_scope.

(** A 53-bit mantissa is not rounded. *)
Lemma binary_round_aux_exact (sx : bool) (mz : positive) (ez : Z) :
  Z.pos (digits2_pos mz) = 53 → -1074 <= ez <= 971 →
  binary_round_aux prec emax sx (Z.pos mz) ez loc_Exact = S754_finite sx mz ez.
Proof.
  intros Hd He. unfold binary_round_aux, shr_fexp. cbn [Zdigits2]. rewrite Hd.
  assert (fexp prec emax (53 + ez) - ez = 0) as ->.
  { unfold fexp, emin, prec, emax. lia. }
  cbn [shr shr_record_of_loc shr_m loc_of_shr_record round_nearest_even Zdigits2].
  rewrite Hd.
  assert (fexp prec emax (53 + ez) - ez = 0) as ->.
  { unfold fexp, emin, prec, emax. lia. }
  cbn [shr shr_record_of_loc shr_m].
  assert ((ez <=? emax - prec) = true) as ->; [|done].
  apply Z.leb_le. unfold emax, prec. lia.
Qed.

(** [float(z)] of an integer of at most 53 bits: the mantissa shifted to 53
    bits. *)
Lemma binary_round_small (sx : bool) (m : positive) :
  Z.pos m < 2 ^ 53 →
  ∃ mz ez, binary_round prec emax sx m 0 = S754_finite sx mz ez
           ∧ bounded prec emax mz ez = true
           ∧ ez <= 0 ∧ Z.pos mz = Z.pos m * 2 ^ (- ez).
Proof.
  intros Hm. pose proof (digits2_bounds m) as [Hlo Hhi].
  set (d := Z.pos (digits2_pos m)) in *.
  assert (d <= 53) as Hd.
  { destruct (Z.le_gt_cases d 53) as [?|Hgt]; [done|].
    assert (2 ^ 53 <= 2 ^ (d - 1)) by (apply Z.pow_le_mono_r; lia). lia. }
  assert (∀ mz ez, Z.pos (digits2_pos mz) = 53 → -1074 <= ez <= 971 →
            bounded prec emax mz ez = true) as Hbounded.
  { intros mz ez Hdz Hez. unfold bounded, canonical_mantissa. rewrite Hdz.
    apply andb_true_iff. split; [apply Z.eqb_eq|apply Z.leb_le];
      unfold fexp, emin, prec, emax; lia. }
  unfold binary_round, shl_align. fold d. rewrite fexp_normal by lia.
  destruct (d + 0 - 53 - 0) as [|k|k] eqn:Hk; [|lia|].
  - assert (d = 53) as Hd53 by lia. exists m, 0.
    rewrite binary_round_aux_exact by (fold d; lia).
    split_and!; [done| |lia|cbn; lia]. apply Hbounded; [done|lia].
  - assert (Z.pos (digits2_pos (Pos.iter xO m k)) = 53) as Hdz.
    { apply digits2_unique. rewrite iter_xO_pow.
      replace (Z.pos k) with (53 - d) by lia.
      assert (2 ^ (53 - 1) = 2 ^ (d - 1) * 2 ^ (53 - d)) as ->.
      { rewrite <- Z.pow_add_r by lia. f_equal. lia. }
      assert (2 ^ 53 = 2 ^ d * 2 ^ (53 - d)) as ->.
      { rewrite <- Z.pow_add_r by lia. f_equal. lia. }
      assert (0 < 2 ^ (53 - d)) by (apply Z.pow_pos_nonneg; lia).
      split; [apply Z.mul_le_mono_nonneg_r|apply Z.mul_lt_mono_pos_r]; lia. }
    exists (Pos.iter xO m k), (d + 0 - 53).
    rewrite binary_round_aux_exact by (done || lia).
    split_and!; [done| |lia|].
    + apply Hbounded; [done|lia].
    + rewrite iter_xO_pow. do 2 f_equal. lia.
Qed.

(** The round trip int -> float -> int is exact below 2^53. *)
Lemma F2Z_exact_Z2F (z : Z) : - 2 ^ 53 < z < 2 ^ 53 → F2Z_exact (Z2F z) = Some z.
Proof.
  intros Hz. unfold Z2F, F2Z_exact. destruct z as [|m|m]; [done| |]; cbn [binary_normalize].
  - destruct (binary_round_small false m) as (mz & ez & -> & Hb & He & Hmz); [lia|].
    rewrite Prim2SF_SF2Prim by done.
    destruct (0 <=? ez) eqn:H0.
    + apply Z.leb_le in H0. assert (ez = 0) as -> by lia. f_equal. cbn in Hmz. lia.
    + rewrite Hmz, Z_mod_mult. cbn [Z.eqb]. rewrite Z.div_mul; [done|].
      apply Z.pow_nonzero; lia.
  - destruct (binary_round_small true m) as (mz & ez & -> & Hb & He & Hmz); [lia|].
    rewrite Prim2SF_SF2Prim by done.
    destruct (0 <=? ez) eqn:H0.
    + apply Z.leb_le in H0. assert (ez = 0) as -> by lia. f_equal. cbn in Hmz. lia.
    + rewrite Hmz, Z_mod_mult. cbn [Z.eqb].
      replace (Z.neg mz) with (Z.neg m * 2 ^ (- ez)) by lia.
      rewrite Z.div_mul; [done|]. apply Z.pow_nonzero; lia.
Qed.

Lemma equivalent_Int64_Z2F (z : Z) :
  (- 2 ^ 53 < z < 2 ^ 53)%Z → equivalent_Int64 (Z2F z) = Ok (Some z).
Proof.
  intros Hz. unfold equivalent_Int64. rewrite Z2F_not_nan, F2Z_exact_Z2F by done.
  assert (in_int64 z = true) as ->; [|done].
  unfold in_int64. apply andb_true_iff. split; [apply Z.leb_le|apply Z.ltb_lt]; lia.
Qed.
End float_exact.

Lemma is_infinity_Prim2SF (f : float) :
  is_infinity f = match Prim2SF f with S754_infinity _ => true | _ => false end.
Proof.
  unfold is_infinity. rewrite FloatAxioms.eqb_spec, FloatAxioms.abs_spec.
  by destruct (Prim2SF f) as [s|s| |s m e].
Qed.

(** A float that denotes an integer is not an infinity. *)
Lemma F2Z_exact_not_infinity (f : float) (z : Z) :
  F2Z_exact f = Some z → is_infinity f = false.
Proof.
  rewrite is_infinity_Prim2SF. unfold F2Z_exact.
  by destruct (Prim2SF f) as [s|s| |s m e].
Qed.

Lemma equivalent_Int64_safe (n : Num) :
  safe_Num n → equivalent_Int64 (Num_float n) = Ok (Int64_of_Num n).
Proof.
  destruct n as [z|f]; cbn; [apply equivalent_Int64_Z2F|].
  unfold equivalent_Int64. destruct (is_nan f); [done|].
  intros [?|(z & -> & ->)]; done.
Qed.

Lemma safe_Num_exact (n : Num) :
  safe_Num n → is_nan (Num_float n) = false → ∃ z, F2Z_exact (Num_float n) = Some z.
Proof.
  destruct n as [z|f]; cbn.
  - intros Hz _. exists z. by apply F2Z_exact_Z2F.
  - intros [->|(z & ? & _)]; [done|]. by exists z.
Qed.

(** ** The largest value of a float64 array *)

Lemma nanmax_foldl (fs : list float) (acc : option float) :
  match foldl (λ acc f,
                 if is_nan f then acc
                 else match acc with
                      | Some a => if (a <? f)%float then Some f else acc
                      | None => Some f
                      end) acc fs with
  | Some m => acc = Some m ∨ m ∈ fs ∧ is_nan m = false
  | None => acc = None ∧ Forall (λ f, is_nan f = true) fs
  end.
Proof.
  revert acc. induction fs as [|f fs IH]; intros acc; cbn [foldl].
  { destruct acc; [by left|done]. }
  specialize (IH (if is_nan f then acc
                  else match acc with
                       | Some a => if (a <? f)%float then Some f else acc
                       | None => Some f
                       end)).
  destruct (foldl _ _ fs) as [m|].
  - destruct IH as [IH|[? ?]]; [|right; split; [by right|done]].
    destruct (is_nan f) eqn:Hf; [by left|].
    destruct acc as [a|].
    + destruct (a <? f)%float; [|by left]. simplify_eq. right. split; [by left|done].
    + simplify_eq. right. split; [by left|done].
  - destruct IH as [IH Hall]. destruct (is_nan f) eqn:Hf.
    + split; [done|]. by constructor.
    + destruct acc as [a|]; [by destruct (a <? f)%float|done].
Qed.

Lemma nanmax_Some (fs : list float) (m : float) :
  nanmax fs = Some m → m ∈ fs ∧ is_nan m = false.
Proof.
  unfold nanmax. intros H. pose proof (nanmax_foldl fs None) as Hm.
  rewrite H in Hm. by destruct Hm as [?|?].
Qed.

Lemma nanmax_None (fs : list float) :
  nanmax fs = None → Forall (λ f, is_nan f = true) fs.
Proof.
  unfold nanmax. intros H. pose proof (nanmax_foldl fs None) as Hm.
  rewrite H in Hm. by destruct Hm as [_ ?].
Qed.

(** A column of safe numbers is converted without an exception, every
    number to its Int64 value. *)
Lemma coerce_safe_column (ns : list Num) :
  Forall safe_Num ns →
  astype_Int64 match mapM Num_int64 ns with
               | Some zs => Int64Col zs
               | None => Float64Col (Num_float <$> ns)
               end
  = Ok (Int64_of_Num <$> ns).
Proof.
  intros Hs. destruct (mapM Num_int64 ns) as [zs|] eqn:Hm; cbn [astype_Int64].
  - f_equal. apply mapM_Some_1 in Hm. clear Hs.
    induction Hm as [|n z ns zs Hn _ IH]; [done|]. csimpl. rewrite IH. f_equal.
    destruct n as [z'|f]; cbn in Hn; [|done]. by destruct (in_int64 z'); simplify_eq.
  - clear Hm.
    assert (traverse equivalent_Int64 (Num_float <$> ns) = Ok (Int64_of_Num <$> ns)) as Ht.
    { induction Hs as [|n' ns Hn' _ IH]; [done|]. csimpl.
      by rewrite equivalent_Int64_safe, IH. }
    destruct (nanmax (Num_float <$> ns)) as [m|] eqn:Hmax.
    + apply nanmax_Some in Hmax as [(n & -> & Hn)%list_elem_of_fmap Hnan].
      destruct (safe_Num_exact n) as [z Hz]; [by eapply list.Forall_forall|done|].
      by rewrite (F2Z_exact_not_infinity _ z Hz), Hz.
    + apply nanmax_None in Hmax. f_equal. rewrite <- list_fmap_compose.
      apply list_fmap_ext. intros i n Hi. cbn.
      assert (is_nan (Num_float n) = true) as Hnan.
      { eapply (list.Forall_forall (λ f, is_nan f = true)); [done|].
        apply list_elem_of_fmap. exists n. split; [done|]. by eapply list_elem_of_lookup_2. }
      destruct n as [z|f]; cbn in *; [by rewrite Z2F_not_nan in Hnan|by rewrite Hnan].
Qed.

(** ** The Int64 conversion of a column *)

Lemma traverse_length {A B} (f : A → result B) (l : list A) (out : list B) :
  traverse f l = Ok out → length out = length l.
Proof. intros H%traverse_Ok. symmetry. by eapply Forall2_length. Qed.

Lemma equivalent_Int64_Raise (f : float) (e : exn) :
  equivalent_Int64 f = Raise e → e = TypeError.
Proof.
  unfold equivalent_Int64. destruct (is_nan f); [done|].
  destruct (F2Z_exact f) as [z|]; [destruct (in_int64 z)|]; congruence.
Qed.

Lemma object_to_int64_Raise (f : float) (e : exn) :
  object_to_int64 f = Raise e → e = OverflowError.
Proof.
  unfold object_to_int64. destruct (is_nan f); [done|].
  destruct (F2Z_trunc f) as [z|]; [destruct (in_int64 z)|]; congruence.
Qed.

Lemma traverse_Raise {A B} (f : A → result B) (l : list A) (e : exn) :
  traverse f l = Raise e → ∃ x, x ∈ l ∧ f x = Raise e.
Proof.
  induction l as [|x l IH]; cbn [traverse]; [done|].
  destruct (f x) as [y|e'] eqn:Hx; cbn [mbind result_bind].
  - destruct (traverse f l) as [ys|e'']; cbn [mbind result_bind]; [done|].
    intros [= ->]. destruct IH as (x' & ? & ?); [done|]. exists x'. split; [by right|done].
  - intros [= ->]. exists x. split; [by left|done].
Qed.

(** astype("Int64") raises nothing but TypeError (a value that is not
    equivalent to its cast) and OverflowError (an infinity, or a value
    beyond the range of a C long next to a fraction). *)
Lemma astype_Int64_Raise (c : NumCol) (e : exn) :
  astype_Int64 c = Raise e → e = TypeError ∨ e = OverflowError.
Proof.
  destruct c as [zs|fs]; cbn [astype_Int64]; [done|].
  destruct (nanmax fs) as [m|]; [|done].
  destruct (is_infinity m); [intros [= <-]; by right|].
  destruct (F2Z_exact m) as [z|].
  - intros (x & _ & Hx)%traverse_Raise. left. by eapply equivalent_Int64_Raise.
  - destruct (traverse object_to_int64 fs) as [zs|e'] eqn:Ht; cbn [mbind result_bind].
    + intros [= <-]. by left.
    + intros [= <-]. apply traverse_Raise in Ht as (x & _ & Hx). right.
      by eapply object_to_int64_Raise.
Qed.

(** What astype("Int64") returns of a float64 array: the equivalent integer
    of every value. *)
Lemma astype_Int64_Ok (fs : list float) (col : list (option Z)) :
  astype_Int64 (Float64Col fs) = Ok col →
  Forall2 (λ f z, equivalent_Int64 f = Ok z) fs col.
Proof.
  cbn [astype_Int64]. destruct (nanmax fs) as [m|] eqn:Hmax.
  - destruct (is_infinity m); [done|]. destruct (F2Z_exact m) as [z|].
    + apply traverse_Ok.
    + by destruct (traverse object_to_int64 fs).
  - intros [= <-]. apply nanmax_None in Hmax.
    induction Hmax as [|f fs Hf _ IH]; csimpl; constructor; [|done].
    unfold equivalent_Int64. by rewrite Hf.
Qed.

Section column_facts.
Variable parse_number : str → option Num.
Variable float_repr : float → str.

Lemma to_numeric_Raise (s : list Cell) (e : exn) :
  to_numeric parse_number s = Raise e → e = OverflowError.
Proof. unfold to_numeric. destruct (existsb int_too_large s); congruence. Qed.

Lemma coerce_Int64_Raise (s : list Cell) (e : exn) :
  coerce_Int64 parse_number s = Raise e → e = TypeError ∨ e = OverflowError.
Proof.
  unfold coerce_Int64. destruct (to_numeric parse_number s) as [c|e'] eqn:Hn;
    cbn [mbind result_bind].
  - apply astype_Int64_Raise.
  - intros [= <-]. right. by eapply to_numeric_Raise.
Qed.

(** The values of a converted column: the integers of an int64 array, or
    the equivalent integers of a float64 array. *)
Lemma coerce_Int64_Ok (s : list Cell) (col : list (option Z)) :
  coerce_Int64 parse_number s = Ok col →
  let ns := to_numeric_cell parse_number <$> s in
  existsb int_too_large s = false
  ∧ ((∃ zs, mapM Num_int64 ns = Some zs ∧ col = Some <$> zs)
     ∨ mapM Num_int64 ns = None
       ∧ Forall2 (λ f z, equivalent_Int64 f = Ok z) (Num_float <$> ns) col).
Proof.
  unfold coerce_Int64, to_numeric. destruct (existsb int_too_large s); [done|].
  cbn [mbind result_bind]. intros H. cbv zeta. split; [done|].
  set (ns := to_numeric_cell parse_number <$> s) in *.
  destruct (mapM Num_int64 ns) as [zs|].
  - left. exists zs. split; [done|]. cbn in H. congruence.
  - right. split; [done|]. by apply astype_Int64_Ok.
Qed.

Lemma coerce_Int64_bind {B} (s : list Cell) (k : list (option Z) → result B) :
  (x ← to_numeric parse_number s; y ← astype_Int64 x; k y)
  = (y ← coerce_Int64 parse_number s; k y).
Proof. unfold coerce_Int64. by destruct (to_numeric parse_number s). Qed.

Lemma coerce_Int64_length (s : list Cell) (col : list (option Z)) :
  coerce_Int64 parse_number s = Ok col → length col = length s.
Proof.
  intros [_ [(zs & Hm & ->)|[_ H]]]%coerce_Int64_Ok.
  - apply length_mapM in Hm. rewrite !length_fmap in *. done.
  - apply Forall2_length in H. by rewrite !length_fmap in H.
Qed.

(** A column of cells whose numbers are safe is converted to their Int64
    values. *)
Lemma coerce_safe_cells (s : list Cell) :
  Forall (λ c, safe_Num (to_numeric_cell parse_number c)) s →
  coerce_Int64 parse_number s = Ok (Int64_of_Num <$> (to_numeric_cell parse_number <$> s)).
Proof.
  intros Hs. unfold coerce_Int64, to_numeric.
  assert (existsb int_too_large s = false) as ->.
  { apply not_true_is_false. intros (c & Hc & Hbig)%existsb_exists.
    apply list_elem_of_In in Hc. eapply list.Forall_forall in Hs; [|done].
    destruct c as [|z|f|t]; cbn [int_too_large to_numeric_cell safe_Num] in *; try done.
    by rewrite (F2Z_exact_not_infinity _ z (F2Z_exact_Z2F z Hs)) in Hbig. }
  cbn [mbind result_bind]. apply coerce_safe_column. by apply Forall_fmap.
Qed.

Lemma at_label_column {A} (s : list (option A)) (n : nat) :
  length s = n → at_label s <$> seq 0 n = s.
Proof. intros <-. apply at_label_seq. Qed.

Lemma columns_by_header (df : RawFrame) (f : Field) :
  foldl (λ (out : Field → list Cell) '(src, dest), assign out dest (_safe_get df src))
        (λ _, []) COLUMN_MAP f
  = _safe_get df (header_of f).
Proof. by destruct f. Qed.

Lemma text_columns_cleaned (out : Field → list Cell) (f : Field) :
  f = Furl ∨ f = Fregnr ∨ f = Ffuel ∨ f = Fbody_type →
  foldl (λ (text : Field → list (option str)) (s : Field),
           assign text s
             (replace_empty <$> (fmap strip <$> (astype_string float_repr <$> out s))))
        (λ _, []) [Furl; Fregnr; Ffuel; Fbody_type] f
  = clean_text float_repr <$> out f.
Proof.
  intros [->|[->|[->| ->]]]; cbn; by rewrite <- !list_fmap_compose.
Qed.

Lemma normalize_columns_inv (df : RawFrame) :
  _normalize_columns parse_number float_repr df
  = (my ← coerce_Int64 parse_number (_safe_get df (header_of Fmodel_year));
     p ← coerce_Int64 parse_number (_safe_get df (header_of Fprice_sek));
     o ← coerce_Int64 parse_number (_safe_get df (header_of Fodometer_km));
     h ← coerce_Int64 parse_number (_safe_get df (header_of Fhorsepower));
     let text f := clean_text float_repr <$> _safe_get df (header_of f) in
     Ok ((λ i, (i, {| url := at_label (text Furl) i;
                      regnr := at_label (text Fregnr) i;
                      model_year := at_label my i;
                      price_sek := at_label p i;
                      odometer_km := at_label o i;
                      fuel := at_label (text Ffuel) i;
                      body_type := at_label (text Fbody_type) i;
                      horsepower := at_label h i |})) <$> seq 0 (len df))).
Proof.
  unfold _normalize_columns. cbn [foldM _NUMERIC_COLS].
  rewrite !text_columns_cleaned by auto.
  rewrite !columns_by_header.
  rewrite coerce_Int64_bind.
  destruct (coerce_Int64 _ (_safe_get df (header_of Fmodel_year))); [|done].
  cbn [mbind result_bind]. rewrite coerce_Int64_bind.
  destruct (coerce_Int64 _ (_safe_get df (header_of Fprice_sek))); [|done].
  cbn [mbind result_bind]. rewrite coerce_Int64_bind.
  destruct (coerce_Int64 _ (_safe_get df (header_of Fodometer_km))); [|done].
  cbn [mbind result_bind]. rewrite coerce_Int64_bind.
  destruct (coerce_Int64 _ (_safe_get df (header_of Fhorsepower))); [|done].
  reflexivity.
Qed.
End column_facts.

(** ** str.strip *)

Lemma lstrip_head (s : str) (c : N) (s' : str) : lstrip s = c :: s' → isspace c = false.
Proof.
  induction s as [|a s IH]; cbn [lstrip]; [done|].
  destruct (isspace a) eqn:Ha; [done|]. by intros [= <- _].
Qed.

Lemma lstrip_suffix (s : str) : ∃ p, s = p ++ lstrip s.
Proof.
  induction s as [|a s [p IH]]; cbn [lstrip]; [by exists []|].
  destruct (isspace a); [|by exists []]. exists (a :: p). by rewrite <- app_comm_cons, <- IH.
Qed.

Lemma rstrip_prefix (s : str) : ∃ q, s = rstrip s ++ q.
Proof.
  unfold rstrip. destruct (lstrip_suffix (reverse s)) as [p Hp].
  exists (reverse p). apply (f_equal reverse) in Hp.
  by rewrite reverse_involutive, reverse_app in Hp.
Qed.

Lemma rstrip_last (s : str) (c : N) (s' : str) : rstrip s = s' ++ [c] → isspace c = false.
Proof.
  unfold rstrip. intros H. apply (f_equal reverse) in H.
  rewrite reverse_involutive, reverse_snoc in H. by eapply lstrip_head.
Qed.

Lemma strip_trimmed (s : str) : strip s ≠ [] → trimmed (strip s).
Proof.
  intros Hne. split_and!; [done|..]; unfold strip.
  - intros c s' Hs. destruct (rstrip_prefix (lstrip s)) as [q Hq].
    rewrite Hs in Hq. by eapply lstrip_head.
  - intros c s'. apply rstrip_last.
Qed.

Lemma clean_text_trimmed (float_repr : float → str) (c : Cell) (s : str) :
  clean_text float_repr c = Some s → trimmed s.
Proof.
  unfold clean_text. destruct (astype_string float_repr c) as [t|]; [|done]. cbn.
  destruct (strip t) as [|a t'] eqn:Ht; [done|]. cbn. intros [= <-].
  rewrite <- Ht. apply strip_trimmed. by rewrite Ht.
Qed.

(** ** The cleanup of the columns *)

Lemma frame_eq {A} (l k : Frame A) : l.*1 = k.*1 → l.*2 = k.*2 → l = k.
Proof.
  revert k. induction l as [|[a b] l IH]; intros [|[a' b'] k]; try done.
  rewrite !fmap_cons. intros [= -> H1] [= -> H2]. f_equal. by apply IH.
Qed.

Lemma filter_all {A} (P : A → Prop) `{!∀ x, Decision (P x)} (l : list A) :
  Forall P l → filter P l = l.
Proof.
  induction 1 as [|x l Hx _ IH]; [done|]. by rewrite filter_cons_True, IH.
Qed.

Lemma drop_duplicates_last_NoDup {A K} `{EqDecision K} (key : A → K) (l : list A) :
  NoDup (key <$> l) → drop_duplicates_last key l = l.
Proof.
  induction l as [|x l IH]; [done|]. rewrite fmap_cons, list.NoDup_cons. intros [Hx Hl].
  cbn [drop_duplicates_last]. rewrite decide_False by done. by rewrite IH.
Qed.

Section columns.
Variable parse_number : str → option Num.
Variable float_repr : float → str.

Lemma normalize_columns_columns (df : RawFrame) (out : Frame Norm) :
  _normalize_columns parse_number float_repr df = Ok out →
  out.*1 = seq 0 (len df)
  ∧ url <$> out.*2 = clean_text float_repr <$> _safe_get df (header_of Furl)
  ∧ regnr <$> out.*2 = clean_text float_repr <$> _safe_get df (header_of Fregnr)
  ∧ fuel <$> out.*2 = clean_text float_repr <$> _safe_get df (header_of Ffuel)
  ∧ body_type <$> out.*2 = clean_text float_repr <$> _safe_get df (header_of Fbody_type)
  ∧ coerce_Int64 parse_number (_safe_get df (header_of Fmodel_year))
    = Ok (model_year <$> out.*2)
  ∧ coerce_Int64 parse_number (_safe_get df (header_of Fprice_sek))
    = Ok (price_sek <$> out.*2)
  ∧ coerce_Int64 parse_number (_safe_get df (header_of Fodometer_km))
    = Ok (odometer_km <$> out.*2)
  ∧ coerce_Int64 parse_number (_safe_get df (header_of Fhorsepower))
    = Ok (horsepower <$> out.*2).
Proof.
  rewrite normalize_columns_inv.
  destruct (coerce_Int64 _ (_safe_get df (header_of Fmodel_year))) as [my|e] eqn:Hmy; [|done].
  destruct (coerce_Int64 _ (_safe_get df (header_of Fprice_sek))) as [p|e] eqn:Hp; [|done].
  destruct (coerce_Int64 _ (_safe_get df (header_of Fodometer_km))) as [o|e] eqn:Ho; [|done].
  destruct (coerce_Int64 _ (_safe_get df (header_of Fhorsepower))) as [h|e] eqn:Hh; [|done].
  cbn [mbind result_bind]. intros [= <-].
  apply coerce_Int64_length in Hmy, Hp, Ho, Hh. rewrite length__safe_get in Hmy, Hp, Ho, Hh.
  assert (∀ f, length (clean_text float_repr <$> _safe_get df (header_of f)) = len df) as Hlen
    by (intros f; by rewrite length_fmap, length__safe_get).
  split_and!.
  - rewrite <- list_fmap_compose. rewrite <- (list_fmap_id (seq 0 (len df))) at 2.
    by apply list_fmap_ext.
  - rewrite <- !list_fmap_compose.
    transitivity (at_label (clean_text float_repr <$> _safe_get df (header_of Furl))
                    <$> seq 0 (len df)); [done|by apply at_label_column].
  - rewrite <- !list_fmap_compose.
    transitivity (at_label (clean_text float_repr <$> _safe_get df (header_of Fregnr))
                    <$> seq 0 (len df)); [done|by apply at_label_column].
  - rewrite <- !list_fmap_compose.
    transitivity (at_label (clean_text float_repr <$> _safe_get df (header_of Ffuel))
                    <$> seq 0 (len df)); [done|by apply at_label_column].
  - rewrite <- !list_fmap_compose.
    transitivity (at_label (clean_text float_repr <$> _safe_get df (header_of Fbody_type))
                    <$> seq 0 (len df)); [done|by apply at_label_column].
  - f_equal. rewrite <- !list_fmap_compose. symmetry.
    transitivity (at_label my <$> seq 0 (len df)); [done|by apply at_label_column].
  - f_equal. rewrite <- !list_fmap_compose. symmetry.
    transitivity (at_label p <$> seq 0 (len df)); [done|by apply at_label_column].
  - f_equal. rewrite <- !list_fmap_compose. symmetry.
    transitivity (at_label o <$> seq 0 (len df)); [done|by apply at_label_column].
  - f_equal. rewrite <- !list_fmap_compose. symmetry.
    transitivity (at_label h <$> seq 0 (len df)); [done|by apply at_label_column].
Qed.

(** The normalization fails when the conversion of a number column does,
    and then with the exception of such a column. *)
Lemma normalize_columns_Raise (df : RawFrame) (e : exn) :
  _normalize_columns parse_number float_repr df = Raise e →
  (e = TypeError ∨ e = OverflowError)
  ∧ ∃ f, f ∈ _NUMERIC_COLS
         ∧ coerce_Int64 parse_number (_safe_get df (header_of f)) = Raise e.
Proof.
  rewrite normalize_columns_inv. unfold _NUMERIC_COLS.
  destruct (coerce_Int64 _ (_safe_get df (header_of Fmodel_year))) as [my|e1] eqn:Hmy.
  2:{ intros [= <-]. split; [by eapply coerce_Int64_Raise|].
      exists Fmodel_year. split; [|done]. rewrite !elem_of_cons. auto. }
  destruct (coerce_Int64 _ (_safe_get df (header_of Fprice_sek))) as [p|e1] eqn:Hp.
  2:{ intros [= <-]. split; [by eapply coerce_Int64_Raise|].
      exists Fprice_sek. split; [|done]. rewrite !elem_of_cons. auto. }
  destruct (coerce_Int64 _ (_safe_get df (header_of Fodometer_km))) as [o|e1] eqn:Ho.
  2:{ intros [= <-]. split; [by eapply coerce_Int64_Raise|].
      exists Fodometer_km. split; [|done]. rewrite !elem_of_cons. auto. }
  destruct (coerce_Int64 _ (_safe_get df (header_of Fhorsepower))) as [h|e1] eqn:Hh.
  2:{ intros [= <-]. split; [by eapply coerce_Int64_Raise|].
      exists Fhorsepower. split; [|done]. rewrite !elem_of_cons. auto. }
  done.
Qed.




(** X3: when every cell of the four number columns reads as a safe number
    (an empty cell, a NaN, text that is no number, an integer below 2^53 in
    size, a float that denotes an integer of the int64 range), the
    transform raises nothing, and every number field of the normalized
    table is the Int64 value of its cell: no integer is altered by the
    passage through float64. *)
Theorem safe_numbers_survive (df : RawFrame) :
  (∀ f, f ∈ _NUMERIC_COLS →
        Forall (λ c, safe_Num (to_numeric_cell parse_number c)) (_safe_get df (header_of f))) →
  ∃ out t,
    _normalize_columns parse_number float_repr df = Ok out
    ∧ transform_cars parse_number float_repr df = Ok t
    ∧ model_year <$> out.*2
      = numeric_value parse_number <$> _safe_get df (header_of Fmodel_year)
    ∧ price_sek <$> out.*2
      = numeric_value parse_number <$> _safe_get df (header_of Fprice_sek)
    ∧ odometer_km <$> out.*2
      = numeric_value parse_number <$> _safe_get df (header_of Fodometer_km)
    ∧ horsepower <$> out.*2
      = numeric_value parse_number <$> _safe_get df (header_of Fhorsepower).
Proof.
  intros Hsafe.
  assert (∀ f, f ∈ _NUMERIC_COLS →
            coerce_Int64 parse_number (_safe_get df (header_of f))
            = Ok (numeric_value parse_number <$> _safe_get df (header_of f))) as Hcol.
  { intros f Hf. unfold numeric_value.
    rewrite coerce_safe_cells by by apply Hsafe.
    by rewrite <- list_fmap_compose. }
  destruct (_normalize_columns parse_number float_repr df) as [out|e] eqn:Hn.
  - destruct (transform_cars_Ok parse_number float_repr df out Hn) as (t & Ht & _).
    exists out, t. split_and!; [done|done|..];
      destruct (normalize_columns_columns df out Hn)
        as (_ & _ & _ & _ & _ & Hmy & Hp & Ho & Hh).
    + rewrite Hcol in Hmy by (unfold _NUMERIC_COLS; rewrite !elem_of_cons; auto). congruence.
    + rewrite Hcol in Hp by (unfold _NUMERIC_COLS; rewrite !elem_of_cons; auto). congruence.
    + rewrite Hcol in Ho by (unfold _NUMERIC_COLS; rewrite !elem_of_cons; auto). congruence.
    + rewrite Hcol in Hh by (unfold _NUMERIC_COLS; rewrite !elem_of_cons; auto). congruence.
  - apply normalize_columns_Raise in Hn as [_ (f & Hf & Hraise)].
    rewrite Hcol in Hraise by done. done.
Qed.

Lemma transform_cars_rows (df : RawFrame) (t : Frame Car) (r : Car) :
  transform_cars parse_number float_repr df = Ok t → r ∈ t.*2 →
  ∃ out r0, _normalize_columns parse_number float_repr df = Ok out
            ∧ r0 ∈ out.*2 ∧ r = with_price_per_1000km r0 ∧ is_Some (url r0).
Proof.
  intros Ht Hr.
  destruct (_normalize_columns parse_number float_repr df) as [out|e] eqn:Hn.
  - destruct (transform_cars_Ok parse_number float_repr df out Hn) as (t' & Ht' & _ & Hrows).
    assert (t' = t) as -> by congruence. rewrite Hrows in Hr.
    eapply elem_of_sublist in Hr; [|apply drop_duplicates_last_sublist].
    apply list_elem_of_filter in Hr as [Hu Hr].
    apply list_elem_of_fmap in Hr as (r0 & -> & Hr0). by exists out, r0.
  - by rewrite (transform_cars_Raise parse_number float_repr df e Hn) in Ht.
Qed.

Lemma column_elem {A} (g : Norm → option A) (h : Cell → option A) (out : list Norm)
    (s : list Cell) (r : Norm) (x : A) :
  g <$> out = h <$> s → r ∈ out → g r = Some x → ∃ c, c ∈ s ∧ h c = Some x.
Proof.
  intros Heq Hr Hg. assert (Some x ∈ h <$> s) as Hin.
  { rewrite <- Heq, <- Hg. by apply list_elem_of_fmap_2. }
  apply list_elem_of_fmap in Hin as (c & ? & ?). by exists c.
Qed.

(** X4: in the transformed table every text field that is present (url,
    regnr, fuel, body_type) is a non-empty text without leading or trailing
    whitespace; the url is present in every row. *)
Theorem transformed_text_is_trimmed (df : RawFrame) (t : Frame Car) :
  transform_cars parse_number float_repr df = Ok t →
  Forall (λ r : Car, is_Some (url r) ∧ text_fields_trimmed r) t.*2.
Proof.
  intros Ht. apply list.Forall_forall. intros r Hr.
  destruct (transform_cars_rows df t r Ht Hr) as (out & r0 & Hn & Hr0 & -> & Hu).
  split; [done|].
  destruct (normalize_columns_columns df out Hn) as (_ & Hurl & Hreg & Hfuel & Hbody & _).
  unfold text_fields_trimmed, with_price_per_1000km. cbn [norm].
  split_and!; intros s Hs.
  - destruct (column_elem _ _ _ _ r0 s Hurl Hr0 Hs) as (c & _ & Hc).
    by eapply clean_text_trimmed.
  - destruct (column_elem _ _ _ _ r0 s Hreg Hr0 Hs) as (c & _ & Hc).
    by eapply clean_text_trimmed.
  - destruct (column_elem _ _ _ _ r0 s Hfuel Hr0 Hs) as (c & _ & Hc).
    by eapply clean_text_trimmed.
  - destruct (column_elem _ _ _ _ r0 s Hbody Hr0 Hs) as (c & _ & Hc).
    by eapply clean_text_trimmed.
Qed.

Lemma _safe_get_absent (df : RawFrame) (col : str) :
  col ∉ header df → _safe_get df col = replicate (len df) CNull.
Proof.
  intros Hcol. unfold _safe_get.
  destruct (list_find _ _) as [[j h]|] eqn:Hf; [|done].
  apply list_find_Some in Hf as (Hj & -> & _). destruct Hcol. by eapply list_elem_of_lookup_2.
Qed.

Lemma coerce_Int64_absent (n : nat) :
  coerce_Int64 parse_number (replicate n CNull) = Ok (replicate n None).
Proof.
  rewrite coerce_safe_cells.
  - by rewrite <- list_fmap_compose, fmap_replicate.
  - apply Forall_replicate. cbn. by left.
Qed.

Lemma column_all_missing {A} (g : Norm → option A) (out : list Norm) (n : nat) :
  g <$> out = replicate n None → Forall (λ r, g r = None) out.
Proof.
  intros Heq. apply list.Forall_forall. intros r Hr.
  assert (g r ∈ replicate n (@None A)) as Hin
    by (rewrite <- Heq; by apply list_elem_of_fmap_2).
  by apply elem_of_replicate in Hin as [? _].
Qed.

(** X5: a column whose header the sheet does not have is tolerated: the
    normalization does not fail because of it, and the field is missing in
    every row. *)
Theorem absent_column_is_missing (df : RawFrame) (out : Frame Norm) (f : Field) :
  header_of f ∉ header df →
  _normalize_columns parse_number float_repr df = Ok out →
  Forall (missing_in f) out.*2.
Proof.
  intros Habs Hn. apply _safe_get_absent in Habs.
  destruct (normalize_columns_columns df out Hn)
    as (_ & Hurl & Hreg & Hfuel & Hbody & Hmy & Hp & Ho & Hh).
  destruct f; cbn [missing_in]; rewrite Habs in *;
    rewrite ?fmap_replicate, ?coerce_Int64_absent in *;
    eapply column_all_missing; first [eassumption | by simplify_eq].
Qed.

(** X6: when the cleaned urls of the sheet are all present and pairwise
    distinct, the transform drops and reorders nothing: its table is the
    normalized table, row for row and under the same index, with the
    derived metric added. *)
Theorem transform_cars_keeps_distinct_rows (df : RawFrame) (out : Frame Norm) :
  let urls := clean_text float_repr <$> _safe_get df (header_of Furl) in
  Forall is_Some urls → NoDup urls →
  _normalize_columns parse_number float_repr df = Ok out →
  transform_cars parse_number float_repr df
  = Ok ((λ r, (r.1, with_price_per_1000km r.2)) <$> out).
Proof.
  intros urls Hsome Hnd Hn.
  destruct (transform_cars_Ok parse_number float_repr df out Hn) as (t & -> & Hidx & Hrows).
  destruct (normalize_columns_columns df out Hn) as (Hout & Hurl & _).
  f_equal.
  assert (t.*2 = with_price_per_1000km <$> out.*2) as Hrows'.
  { rewrite Hrows. rewrite filter_all.
    - apply drop_duplicates_last_NoDup. by rewrite url_with_price_per_1000km, Hurl.
    - apply Forall_fmap. apply list.Forall_forall. intros r Hr. cbn.
      rewrite list.Forall_forall in Hsome. apply Hsome. fold urls in Hurl. rewrite <- Hurl.
      by apply list_elem_of_fmap_2. }
  apply frame_eq.
  - rewrite Hidx, <- list_fmap_compose. cbn.
    change (fst ∘ _) with (@fst nat Norm). rewrite Hout.
    f_equal. rewrite <- (length_fmap snd t), Hrows', !length_fmap.
    rewrite <- (length_fmap fst out), Hout. by rewrite length_seq.
  - by rewrite Hrows', <- !list_fmap_compose.
Qed.
End columns.

(** * Further properties of the load *)

(** ** Row conversion *)

Lemma bind_Ok {A B} (m : result A) (k : A → result B) (y : B) :
  m ≫= k = Ok y → ∃ x, m = Ok x ∧ k x = Ok y.
Proof. destruct m as [x|e]; [|done]. intros H. by exists x. Qed.

Lemma item_take (r : list Value) (n i : nat) : (i < n)%nat → item (take n r) i = item r i.
Proof. intros Hi. unfold item. by rewrite lookup_take_lt. Qed.

Section convert_bounds.
Variable float_repr : float → str.
Variable int_of_str : str → option Z.
Variable float_of_str : str → option float.

Lemma convert_row_length (now : str) (r : list Value) (row : DbRow) :
  convert_row float_repr int_of_str float_of_str now r = Ok row → (9 <= length r)%nat.
Proof.
  unfold convert_row. intros H.
  do 8 (apply bind_Ok in H as (? & _ & H)).
  apply bind_Ok in H as (? & H & _). apply bind_Ok in H as (v & H & _).
  unfold item in H. destruct (r !! 8%nat) eqn:Hr; [|done].
  apply lookup_lt_Some in Hr. lia.
Qed.

(** X7: a row tuple is read at its positions 0 to 8 only.  A tuple with
    fewer than nine fields is never converted (the empty tuple raises
    IndexError), further fields are ignored, and one short tuple makes the
    conversion of the whole batch fail. *)
Theorem convert_row_reads_nine_fields (now : str) (r : list Value) :
  (∀ row, convert_row float_repr int_of_str float_of_str now r = Ok row →
          (9 <= length r)%nat)
  ∧ convert_row float_repr int_of_str float_of_str now [] = Raise IndexError
  ∧ convert_row float_repr int_of_str float_of_str now (take 9 r)
    = convert_row float_repr int_of_str float_of_str now r
  ∧ (∀ rows clock out,
       (_convert_row_for_db float_repr int_of_str float_of_str rows clock).1 = Ok out →
       Forall (λ r, (9 <= length r)%nat) rows).
Proof.
  split_and!.
  - apply convert_row_length.
  - done.
  - unfold convert_row. by rewrite !item_take by lia.
  - intros rows clock out. unfold _convert_row_for_db, now_isoformat. cbn [fst].
    intros H%traverse_Ok. induction H as [|r' row rows out Hr _ IH]; constructor; [|done].
    by eapply convert_row_length.
Qed.
End convert_bounds.

(** ** Statements and batches *)

Lemma UPSERT_SQL_urls (t t' : Table) (p : DbRow) :
  UPSERT_SQL t p = Ok t' → db_url <$> t `prefix_of` db_url <$> t'.
Proof.
  intros (_ & _ & H)%UPSERT_SQL_Ok.
  destruct H as [(i & old & Hi & _ & Hold & _ & ->)|(_ & _ & ->)].
  - rewrite list_fmap_insert. change (db_url (bound p)) with (db_url p).
    rewrite list_insert_id; [done|]. by rewrite list_lookup_fmap, Hi, <- Hold.
  - rewrite fmap_app. by apply prefix_app_r.
Qed.

Lemma UPSERT_SQL_lookup (t t' : Table) (p x : DbRow) (i : nat) :
  UPSERT_SQL t p = Ok t' → t !! i = Some x →
  (is_Some (db_url x) → db_url x ≠ db_url p) → t' !! i = Some x.
Proof.
  intros (_ & _ & H)%UPSERT_SQL_Ok Hx Hne.
  destruct H as [(j & old & Hj & Hsome & Hold & _ & ->)|(_ & _ & ->)].
  - rewrite list_lookup_insert_ne; [done|].
    intros ->. rewrite Hj in Hx. injection Hx as ->. apply Hne; [by rewrite Hold|done].
  - by apply lookup_app_l_Some.
Qed.

Lemma apply_all_urls (rows : list DbRow) (t t' : Table) :
  apply_all t rows = Ok t' → db_url <$> t `prefix_of` db_url <$> t'.
Proof.
  revert t. induction rows as [|p rows IH]; intros t; cbn [apply_all].
  - by intros [= <-].
  - destruct (UPSERT_SQL t p) as [t1|] eqn:Hp; [|done]. cbn [mbind result_bind].
    intros Hall. etrans; [by eapply UPSERT_SQL_urls|by apply IH].
Qed.

Lemma apply_all_lookup (rows : list DbRow) (t t' : Table) (x : DbRow) (i : nat) :
  apply_all t rows = Ok t' → t !! i = Some x →
  (is_Some (db_url x) → db_url x ∉ db_url <$> rows) → t' !! i = Some x.
Proof.
  revert t. induction rows as [|p rows IH]; intros t; cbn [apply_all].
  - by intros [= <-].
  - destruct (UPSERT_SQL t p) as [t1|] eqn:Hp; [|done]. cbn [mbind result_bind].
    intros Hall Hx Hnin. eapply IH; [done| |].
    + eapply UPSERT_SQL_lookup; [done..|]. intros Hs Heq. apply Hnin; [done|].
      rewrite fmap_cons, Heq. by left.
    + intros Hs Hin. apply Hnin; [done|]. rewrite fmap_cons. by right.
Qed.

Lemma apply_all_app (r1 r2 : list DbRow) (t : Table) :
  apply_all t (r1 ++ r2) = t1 ← apply_all t r1; apply_all t1 r2.
Proof.
  revert t. induction r1 as [|p r1 IH]; intros t; [done|].
  cbn [app apply_all]. destruct (UPSERT_SQL t p) as [t1|]; [|done]. apply IH.
Qed.

Lemma upsert_cars_Ok (conn conn' : Conn) (rows : list DbRow) (n : nat) :
  upsert_cars conn rows = (conn', Ok n) →
  n = length rows ∧ apply_all (view conn) rows = Ok (view conn')
  ∧ (rows ≠ [] → conn' = {| committed := view conn'; pending := None |}).
Proof.
  intros H. pose proof (upsert_cars_apply_all conn rows) as Hup.
  destruct (apply_all (view conn) rows) as [t|e] eqn:Hall; rewrite H in Hup; [|done].
  injection Hup as -> ->. split; [done|]. destruct rows as [|r rows].
  - cbn in Hall. by split.
  - by split.
Qed.

(** X8: a successful batch deletes no row and moves none: the urls stored
    before it are, in rowid order, the first urls stored after it, and a
    row whose url is not in the batch (a row without url, say) is found
    unchanged at its position. *)
Theorem upsert_cars_keeps_other_rows (conn conn' : Conn) (rows : list DbRow) (n : nat) :
  upsert_cars conn rows = (conn', Ok n) →
  db_url <$> view conn `prefix_of` db_url <$> view conn'
  ∧ (length (view conn) <= length (view conn'))%nat
  ∧ ∀ i x, view conn !! i = Some x →
           (is_Some (db_url x) → db_url x ∉ db_url <$> rows) →
           view conn' !! i = Some x.
Proof.
  intros (_ & Hall & _)%upsert_cars_Ok. split_and!.
  - by eapply apply_all_urls.
  - apply apply_all_urls in Hall. apply prefix_length in Hall.
    by rewrite !length_fmap in Hall.
  - intros i x. by eapply apply_all_lookup.
Qed.

Lemma UPSERT_SQL_keeps_elem (t t' : Table) (p x : DbRow) :
  UPSERT_SQL t p = Ok t' → x ∈ t → (is_Some (db_url x) → db_url x ≠ db_url p) → x ∈ t'.
Proof.
  intros Hp (i & Hi)%list_elem_of_lookup Hne.
  apply (list_elem_of_lookup_2 _ i). by eapply UPSERT_SQL_lookup.
Qed.

Lemma apply_all_keeps_elem (rows : list DbRow) (t t' : Table) (x : DbRow) :
  apply_all t rows = Ok t' → x ∈ t →
  (is_Some (db_url x) → db_url x ∉ db_url <$> rows) → x ∈ t'.
Proof.
  intros Hall (i & Hi)%list_elem_of_lookup Hne.
  apply (list_elem_of_lookup_2 _ i). by eapply apply_all_lookup.
Qed.

(** X9: of the rows of a batch that share a url, the last one is what the
    store holds afterwards: after a successful batch the last row of every
    url, and every row without url, is stored as bound. *)
Theorem upsert_cars_last_row_wins (conn conn' : Conn) (l1 l2 : list DbRow) (p : DbRow)
    (n : nat) :
  upsert_cars conn (l1 ++ p :: l2) = (conn', Ok n) →
  (is_Some (db_url p) → db_url p ∉ db_url <$> l2) →
  bound p ∈ committed conn' ∧ pending conn' = None.
Proof.
  intros (_ & Hall & Hc)%upsert_cars_Ok Hlast.
  rewrite Hc by by destruct l1. cbn [committed pending]. split; [|done].
  rewrite apply_all_app in Hall. apply bind_Ok in Hall as (t1 & _ & Hall).
  cbn [apply_all] in Hall. apply bind_Ok in Hall as (t2 & Hp & Hall).
  eapply apply_all_keeps_elem; [done|by eapply UPSERT_SQL_adds|done].
Qed.

(** X10: a row whose url is not stored yet, or that has no url, is
    inserted after the stored rows, as it was bound (a NaN metric as NULL),
    and no stored row changes. *)
Theorem upsert_new_url_appends (t t' : Table) (p : DbRow) :
  (is_Some (db_url p) → db_url p ∉ db_url <$> t) →
  UPSERT_SQL t p = Ok t' →
  t' = t ++ [bound p]
  ∧ t' !! length t = Some (bound p)
  ∧ ∀ i x, t !! i = Some x → t' !! i = Some x.
Proof.
  intros Hnew (_ & _ & [(i & old & Hi & Hs & Hold & _)|(_ & _ & ->)])%UPSERT_SQL_Ok.
  - destruct Hnew; [done|]. rewrite <- Hold.
    apply list_elem_of_fmap_2. by eapply list_elem_of_lookup_2.
  - split_and!; [done| |].
    + by rewrite lookup_app_r, Nat.sub_diag by lia.
    + intros i x Hx. by apply lookup_app_l_Some.
Qed.

(** X11: the registration number is unique across urls: a row whose regnr
    is stored under another url is refused with IntegrityError (or with
    the OverflowError of an integer that cannot be bound), and a batch of
    it alone leaves the store as it was. *)
Theorem stored_regnr_refused_for_other_url (t : Table) (p x : DbRow) :
  x ∈ t → is_Some (db_regnr p) → db_regnr x = db_regnr p → db_url x ≠ db_url p →
  UPSERT_SQL t p
  = match bind_parameters p with
    | Ok _ => Raise IntegrityError
    | Raise e => Raise e
    end
  ∧ ∃ e, upsert_cars (get_conn t) [p] = (get_conn t, Raise e).
Proof.
  intros Hx Hg Hreg Hurl.
  assert (UPSERT_SQL t p
          = match bind_parameters p with
            | Ok _ => Raise IntegrityError
            | Raise e => Raise e
            end) as Hp.
  { unfold UPSERT_SQL. destruct (bind_parameters p) as [r|e] eqn:Hb; [|done].
    apply bind_parameters_bound in Hb as [-> _]. cbn [mbind result_bind].
    destruct (negb _); [done|].
    change (db_url (bound p)) with (db_url p). change (db_regnr (bound p)) with (db_regnr p).
    destruct (url_conflict t (db_url p)) as [[i old]|] eqn:Hc.
    - assert (regnr_taken (delete i t) (db_regnr p) = true) as ->; [|done].
      apply bool_decide_eq_true. split; [done|]. rewrite <- Hreg.
      apply list_elem_of_fmap_2. apply list_elem_of_lookup in Hx as (j & Hj).
      eapply elem_of_delete_lookup; [done|]. intros ->.
      unfold url_conflict in Hc. destruct (db_url p); [|done].
      apply list_find_Some in Hc as (Hi & Hold & _). congruence.
    - assert (regnr_taken t (db_regnr p) = true) as ->; [|done].
      apply bool_decide_eq_true. split; [done|]. rewrite <- Hreg.
      by apply list_elem_of_fmap_2. }
  split; [done|].
  pose proof (upsert_cars_apply_all (get_conn t) [p]) as Hup.
  change (view (get_conn t)) with t in Hup. cbn [apply_all] in Hup. rewrite Hp in Hup.
  destruct (bind_parameters p); cbn [mbind result_bind] in Hup; eauto.
Qed.

(** X12: the primary key does not guard rows without url: such a row is
    always inserted as a new row, and when it has no regnr either,
    submitting it again stores it a second time. *)
Theorem null_url_rows_accumulate (t t' : Table) (p : DbRow) :
  db_url p = None → UPSERT_SQL t p = Ok t' →
  t' = t ++ [bound p]
  ∧ (db_regnr p = None → UPSERT_SQL t' p = Ok (t ++ [bound p; bound p])).
Proof.
  intros Hu Hp. assert (t' = t ++ [bound p]) as ->.
  { apply UPSERT_SQL_Ok in Hp as (_ & _ & [(i & old & _ & Hs & _)|(_ & _ & ->)]); [|done].
    rewrite Hu in Hs. by destruct Hs. }
  split; [done|]. intros Hg. revert Hp. unfold UPSERT_SQL.
  destruct (bind_parameters p) as [r|] eqn:Hb; [|done].
  apply bind_parameters_bound in Hb as [-> _]. cbn [mbind result_bind].
  destruct (negb _); [done|]. intros _.
  change (db_url (bound p)) with (db_url p). change (db_regnr (bound p)) with (db_regnr p).
  unfold url_conflict. rewrite Hu, Hg. cbn. by rewrite <- app_assoc.
Qed.

(** X13: a batch split in two.  On a connection without open transaction,
    when both parts succeed one after the other, the whole batch succeeds
    in one call with the same outcome and the sum of the counts; when the
    second part fails, the whole batch fails with its error and, unlike
    the two calls, keeps nothing of the first part. *)
Theorem upsert_cars_split_batch (conn c1 : Conn) (r1 r2 : list DbRow) (n1 : nat) :
  pending conn = None →
  upsert_cars conn r1 = (c1, Ok n1) →
  match upsert_cars c1 r2 with
  | (c2, Ok n2) => upsert_cars conn (r1 ++ r2) = (c2, Ok (n1 + n2)%nat)
  | (c2, Raise e) =>
      upsert_cars conn (r1 ++ r2) = (conn, Raise e) ∧ committed c2 = view c1
  end.
Proof.
  intros Hpend H1. destruct conn as [t pend]. cbn in Hpend. subst pend.
  assert (∃ t1, c1 = {| committed := t1; pending := None |} ∧ apply_all t r1 = Ok t1
                ∧ n1 = length r1) as (t1 & -> & Hall1 & ->).
  { apply upsert_cars_Ok in H1 as H1'. destruct H1' as (-> & Hall1 & Hc1).
    change (view {| committed := t; pending := None |}) with t in Hall1.
    destruct r1 as [|r r1].
    - cbn in H1. exists t. by simplify_eq/=.
    - exists (view c1). split_and!; [by apply Hc1|done..]. }
  pose proof (upsert_cars_apply_all {| committed := t1; pending := None |} r2) as H2.
  pose proof (upsert_cars_apply_all {| committed := t; pending := None |} (r1 ++ r2)) as H12.
  change (view {| committed := t1; pending := None |}) with t1 in H2.
  change (view {| committed := t; pending := None |}) with t in H12.
  rewrite apply_all_app, Hall1 in H12. cbn [mbind result_bind] in H12.
  destruct (apply_all t1 r2) as [t2|e] eqn:Hall2; rewrite H2, H12.
  - rewrite length_app. f_equal. destruct r2 as [|r r2].
    + rewrite app_nil_r. cbn in Hall2. injection Hall2 as <-.
      destruct r1 as [|r r1]; [|done]. cbn in Hall1. by injection Hall1 as <-.
    + by destruct r1.
  - done.
Qed.

(** ** load_cars and run_etl *)

Section load_more.
Variable parse_number : str → option Num.
Variable float_repr : float → str.
Variable int_of_str : str → option Z.
Variable float_of_str : str → option float.

(** load_cars as the conversion followed by the batch. *)
Lemma load_cars_unfold (df : list (list Value)) (db : Table) (clock : Clock) :
  load_cars float_repr int_of_str float_of_str df db clock
  = match traverse (convert_row float_repr int_of_str float_of_str (clock 0%nat)) df with
    | Ok rows =>
        match apply_all db rows with
        | Ok t => (t, λ n, clock (S n), Ok (length df))
        | Raise e => (db, λ n, clock (S n), Raise e)
        end
    | Raise e => (db, λ n, clock (S n), Raise e)
    end.
Proof.
  unfold load_cars, _convert_row_for_db, now_isoformat.
  destruct (traverse _ df) as [rows|e] eqn:Hrows; [|done].
  pose proof (upsert_cars_apply_all (init_schema (get_conn db)) rows) as Hup.
  change (view (init_schema (get_conn db))) with db in Hup.
  destruct (apply_all db rows) as [t|e] eqn:Hall; rewrite Hup; [|done].
  apply traverse_length in Hrows as ->. destruct rows as [|r rows]; [|done].
  cbn in Hall. by injection Hall as <-.
Qed.

(** X14: load_cars is all or nothing.  It reads the clock once; when it
    returns, the count is the number of rows of the table and the store is
    the one every statement of the batch has been applied to; when it
    raises (a row that cannot be converted, an integer that cannot be
    bound, a check or a uniqueness violation), the store is the one from
    before the call. *)
Theorem load_cars_all_or_nothing (df : list (list Value)) (db : Table) (clock : Clock) :
  let '(db', clock', res) := load_cars float_repr int_of_str float_of_str df db clock in
  clock' = (λ n, clock (S n))
  ∧ match res with
    | Ok n =>
        n = length df
        ∧ ∃ rows,
            traverse (convert_row float_repr int_of_str float_of_str (clock 0%nat)) df
              = Ok rows
            ∧ apply_all db rows = Ok db'
    | Raise e => db' = db
    end.
Proof.
  rewrite load_cars_unfold.
  destruct (traverse _ df) as [rows|e] eqn:Hrows; [|done].
  destruct (apply_all db rows) as [t|e] eqn:Hall; [|done].
  split; [done|]. split; [done|]. by exists rows.
Qed.

(** X15: a load keeps the constraints of the schema: in the store it leaves,
    urls are unique, registration numbers are unique, and every row
    satisfies the checks and the NOT NULL of load_ts, whatever the rows
    submitted and whether the load succeeds or not. *)
Theorem load_cars_keeps_constraints (df : list (list Value)) (db : Table) (clock : Clock) :
  stored_ok db →
  stored_ok (load_cars float_repr int_of_str float_of_str df db clock).1.1.
Proof.
  intros Hdb. rewrite load_cars_unfold.
  destruct (traverse _ df) as [rows|e] eqn:Hrows; [|done].
  destruct (apply_all db rows) as [t|e] eqn:Hall; [|done].
  by eapply apply_all_stored_ok.
Qed.

Lemma transform_cars_urls (df : RawFrame) (t : Frame Car) :
  transform_cars parse_number float_repr df = Ok t →
  (λ r : Car, url r) <$> t.*2
  = remove_dups (filter is_Some (clean_text float_repr <$> _safe_get df (header_of Furl))).
Proof.
  intros Ht. destruct (_normalize_columns parse_number float_repr df) as [out|e] eqn:Hn.
  - destruct (transform_cars_Ok parse_number float_repr df out Hn) as (t' & Ht' & _ & Hrows).
    assert (t' = t) as -> by congruence.
    destruct (normalize_columns_columns parse_number float_repr df out Hn) as (_ & Hurl & _).
    rewrite Hrows, drop_duplicates_last_keys.
    rewrite (filter_is_Some_fmap (λ r : Car, url r)), url_with_price_per_1000km.
    by rewrite Hurl.
  - by rewrite (transform_cars_Raise parse_number float_repr df e Hn) in Ht.
Qed.

Lemma db_url_to_db_row (now : str) (l : list Car) :
  db_url <$> (to_db_row now <$> l) = (λ r : Car, url r) <$> l.
Proof. by rewrite <- list_fmap_compose. Qed.

(** The batch of a transformed table submitted a second time. *)
Lemma apply_all_again (now now' : str) (l : list Car) (t t1 : Table) :
  stored_ok t →
  Forall (λ r : Car, is_Some (url r)) l → NoDup ((λ r : Car, url r) <$> l) →
  apply_all t (to_db_row now <$> l) = Ok t1 →
  apply_all t1 (to_db_row now' <$> l) = Ok (restamp now' ((λ r : Car, url r) <$> l) t1).
Proof.
  intros Ht Hurls Hnd Hall.
  set (xs := to_db_row now <$> l) in *.
  assert (stored_ok t1) as Ht1 by by eapply apply_all_stored_ok.
  assert (db_url <$> xs = (λ r : Car, url r) <$> l) as Hxu by apply db_url_to_db_row.
  assert (Forall (λ x, is_Some (db_url x) ∧ x ∈ t1) xs) as Hxs.
  { apply apply_all_contains in Hall; [|by rewrite Hxu].
    rewrite list.Forall_forall in Hall. rewrite list.Forall_forall in Hurls.
    apply list.Forall_forall.
    intros x Hx. pose proof (Hall x Hx) as Hin.
    apply list_elem_of_fmap in Hx as (r & -> & Hr).
    rewrite bound_to_db_row in Hin. split; [by apply Hurls|done]. }
  assert (to_db_row now' <$> l = set_load_ts (Some now') <$> xs) as ->.
  { unfold xs. by rewrite <- (list_fmap_compose (to_db_row now) (set_load_ts (Some now'))). }
  rewrite apply_all_restamp by (done || by rewrite Hxu). by rewrite Hxu.
Qed.

(** X16: the pipeline end to end.  When run_etl returns n, the sheet was
    read and transformed, n is the number of distinct urls that are
    present after the cleanup, every row of the transformed table is in the
    store with the first reading of the clock as its load_ts, and the urls
    stored before are still the first ones stored; when it raises, at
    whatever stage, the store is the one from before the run. *)
Theorem run_etl_end_to_end (read_excel : result Sheets) (db : Table) (clock : Clock) :
  let '(db', clock', res) :=
    run_etl parse_number float_repr int_of_str float_of_str read_excel db clock in
  match res with
  | Ok n =>
      ∃ df t,
        extract_excel read_excel = Ok df
        ∧ transform_cars parse_number float_repr df = Ok t
        ∧ n = length t
        ∧ n = length (remove_dups (filter is_Some
                        (clean_text float_repr <$> _safe_get df (header_of Furl))))
        ∧ Forall (λ r, to_db_row (clock 0%nat) r ∈ db') t.*2
        ∧ db_url <$> db `prefix_of` db_url <$> db'
        ∧ clock' = (λ k, clock (S k))
  | Raise e => db' = db
  end.
Proof.
  unfold run_etl. destruct (extract_excel read_excel) as [df|e]; [|done].
  destruct (transform_cars parse_number float_repr df) as [t|e] eqn:Ht; [|done].
  rewrite load_cars_transformed.
  destruct (apply_all db _) as [db'|e] eqn:Hall; [|done].
  pose proof (transform_cars_urls df t Ht) as Hurls.
  exists df, t. split_and!; [done|done|done| | | |done].
  - by rewrite <- Hurls, !length_fmap.
  - apply apply_all_contains in Hall.
    + apply Forall_fmap in Hall. eapply list.Forall_impl; [exact Hall|].
      intros r. cbn. by rewrite bound_to_db_row.
    + rewrite db_url_to_db_row, Hurls. apply NoDup_remove_dups.
  - by eapply apply_all_urls.
Qed.

(** X17: the pipeline is idempotent up to load_ts.  After a run that
    succeeded on a store that satisfied its constraints, a second run on
    the same workbook succeeds with the same count, adds and removes no
    row, and changes no stored field other than the load_ts of the rows of
    the workbook. *)
Theorem run_etl_twice (read_excel : result Sheets) (db db1 : Table)
    (clock clock1 : Clock) (n : nat) :
  stored_ok db →
  run_etl parse_number float_repr int_of_str float_of_str read_excel db clock
    = (db1, clock1, Ok n) →
  ∃ db2,
    run_etl parse_number float_repr int_of_str float_of_str read_excel db1 clock1
      = (db2, λ k, clock1 (S k), Ok n)
    ∧ length db2 = length db1
    ∧ forget_load_ts <$> db2 = forget_load_ts <$> db1
    ∧ ∀ i x, db1 !! i = Some x →
             ∃ y, db2 !! i = Some y
                  ∧ (y = x ∨ y = set_load_ts (Some (clock1 0%nat)) x).
Proof.
  intros Hdb. unfold run_etl. destruct (extract_excel read_excel) as [df|e]; [|done].
  destruct (transform_cars parse_number float_repr df) as [t|e] eqn:Ht; [|done].
  rewrite !load_cars_transformed.
  destruct (apply_all db _) as [t1|e] eqn:Hall; [|done]. intros [= -> <- <-].
  pose proof (transform_cars_urls df t Ht) as Hurls.
  rewrite (apply_all_again (clock 0%nat) (clock 1%nat) t.*2 db db1); [|done| | |done].
  - eexists. split_and!; [reflexivity|..].
    + unfold restamp. by rewrite length_fmap.
    + apply restamp_forget.
    + intros i x Hx. unfold restamp. rewrite list_lookup_fmap, Hx. cbn.
      eexists. split; [done|]. destruct (decide _); auto.
  - apply list.Forall_forall. intros r Hr.
    assert (url r ∈ (λ r : Car, url r) <$> t.*2) as Hin
      by (apply list_elem_of_fmap; by exists r).
    rewrite Hurls, elem_of_remove_dups in Hin. by apply list_elem_of_filter in Hin as [? _].
  - rewrite Hurls. apply NoDup_remove_dups.
Qed.
End load_more.

(** * The metric and the exceptions of the pipeline *)

(** ** The derived metric is a number *)

Section metric_facts.
Local Open Scope Z_scope.

Lemma binary_round_aux_not_nan (sx : bool) (m e : Z) (l : location) :
  0 <= m → binary_round_aux prec emax sx m e l ≠ S754_nan.
Proof.
  intros Hm. unfold binary_round_aux.
  destruct (shr_fexp prec emax m e l) as [r1 e1] eqn:E1.
  apply shr_fexp_spec in E1 as [Hm1 _]; [|done].
  assert (0 <= shr_m r1) as H1.
  { rewrite Hm1. apply Z.div_pos; [done|]. apply Z.pow_pos_nonneg; lia. }
  pose proof (round_nearest_even_bounds (shr_m r1) (loc_of_shr_record r1)) as Hr.
  destruct (shr_fexp prec emax _ e1 loc_Exact) as [r2 e2] eqn:E2.
  apply shr_fexp_spec in E2 as [Hm2 _]; [|lia].
  assert (0 <= shr_m r2) as H2.
  { rewrite Hm2. apply Z.div_pos; [lia|]. apply Z.pow_pos_nonneg; lia. }
  destruct (shr_m r2) as [|q|q]; [done| |lia]. by destruct (_ <=? _).
Qed.

Lemma binary_normalize_not_nan (m e : Z) (szero : bool) :
  binary_normalize prec emax m e szero ≠ S754_nan.
Proof.
  destruct m as [|p|p]; cbn [binary_normalize]; [done|..];
    unfold binary_round; destruct (shl_align _ _ _) as [mz ez];
    by apply binary_round_aux_not_nan.
Qed.

(** An integer of the int64 range, zero apart, is a finite float. *)
Lemma binary_round_aux_finite (sx : bool) (mz : positive) (ez : Z) :
  53 <= Z.pos (digits2_pos mz) → -1074 <= ez → Z.pos (digits2_pos mz) + ez <= 1023 →
  ∃ m e, binary_round_aux prec emax sx (Z.pos mz) ez loc_Exact = S754_finite sx m e
         ∧ bounded prec emax m e = true.
Proof.
  intros Hd He Hmax.
  destruct (binary_round_aux_normal sx mz ez Hd He) as [?|Hinf]; [done|exfalso].
  revert Hinf. pose proof (digits2_bounds mz) as [Hlo Hhi].
  set (d := Z.pos (digits2_pos mz)) in *.
  unfold binary_round_aux.
  destruct (shr_fexp prec emax (Z.pos mz) ez loc_Exact) as [r1 e1] eqn:E1.
  apply shr_fexp_spec in E1 as [Hm1 He1]; [|lia]. cbn [Zdigits2] in Hm1, He1.
  fold d in Hm1, He1. rewrite fexp_normal in Hm1, He1 by lia.
  replace (Z.max 0 (d + ez - 53 - ez)) with (d - 53) in Hm1, He1 by lia.
  assert (2 ^ 52 <= shr_m r1 < 2 ^ 53) as [Hlo1 Hhi1].
  { rewrite Hm1. split.
    - apply Z.div_le_lower_bound; [lia|]. rewrite <- Z.pow_add_r by lia.
      by replace (d - 53 + 52) with (d - 1) by lia.
    - apply Z.div_lt_upper_bound; [lia|]. rewrite <- Z.pow_add_r by lia.
      by replace (d - 53 + 53) with d by lia. }
  pose proof (round_nearest_even_bounds (shr_m r1) (loc_of_shr_record r1)) as Hr.
  set (m2 := round_nearest_even (shr_m r1) (loc_of_shr_record r1)) in *.
  destruct (shr_fexp prec emax m2 e1 loc_Exact) as [r2 e2] eqn:E2.
  apply shr_fexp_spec in E2 as [Hm2 He2]; [|lia].
  destruct m2 as [|p2|p2] eqn:Ep2; [lia| |lia].
  cbn [Zdigits2] in Hm2, He2.
  assert (Z.pos (digits2_pos p2) <= 54) as Hd2.
  { pose proof (digits2_bounds p2) as [Hlo2 _].
    destruct (Z.le_gt_cases (Z.pos (digits2_pos p2)) 54) as [?|Hgt]; [done|].
    assert (2 ^ 54 <= 2 ^ (Z.pos (digits2_pos p2) - 1)) by (apply Z.pow_le_mono_r; lia).
    lia. }
  assert (e2 <= 971) as He2max.
  { rewrite He2. unfold fexp, emin, prec, emax. lia. }
  destruct (shr_m r2) as [|q|q]; [done| |done].
  assert ((e2 <=? emax - prec) = true) as ->; [|done].
  apply Z.leb_le. unfold emax, prec. lia.
Qed.

Lemma Prim2SF_Z2F_finite (z : Z) :
  z ≠ 0 → in_int64 z = true → ∃ s m e, Prim2SF (Z2F z) = S754_finite s m e.
Proof.
  intros Hz Hr. unfold in_int64 in Hr. apply andb_true_iff in Hr as [Hlo%Z.leb_le Hhi%Z.ltb_lt].
  assert (∀ sx (p : positive), Z.pos p <= 2 ^ 63 →
            ∃ m e, binary_round prec emax sx p 0 = S754_finite sx m e
                   ∧ bounded prec emax m e = true) as Hround.
  { intros sx p Hp. pose proof (digits2_bounds p) as [Hdlo Hdhi].
    set (d := Z.pos (digits2_pos p)) in *.
    assert (d <= 64) as Hd.
    { destruct (Z.le_gt_cases d 64) as [?|Hgt]; [done|].
      assert (2 ^ 64 <= 2 ^ (d - 1)) by (apply Z.pow_le_mono_r; lia). lia. }
    unfold binary_round, shl_align. fold d. rewrite fexp_normal by lia.
    destruct (d + 0 - 53 - 0) as [|k|k] eqn:Hk;
      try (apply binary_round_aux_finite; fold d; lia).
    assert (Z.pos (digits2_pos (Pos.iter xO p k)) = 53) as Hdz.
    { apply digits2_unique. rewrite iter_xO_pow.
      replace (Z.pos k) with (53 - d) by lia.
      assert (2 ^ (53 - 1) = 2 ^ (d - 1) * 2 ^ (53 - d)) as ->.
      { rewrite <- Z.pow_add_r by lia. f_equal. lia. }
      assert (2 ^ 53 = 2 ^ d * 2 ^ (53 - d)) as ->.
      { rewrite <- Z.pow_add_r by lia. f_equal. lia. }
      assert (0 < 2 ^ (53 - d)) by (apply Z.pow_pos_nonneg; lia).
      split; [apply Z.mul_le_mono_nonneg_r|apply Z.mul_lt_mono_pos_r]; lia. }
    apply binary_round_aux_finite; lia. }
  unfold Z2F. destruct z as [|p|p]; [done| |]; cbn [binary_normalize].
  - destruct (Hround false p) as (m & e & -> & Hb); [lia|].
    exists false, m, e. by apply Prim2SF_SF2Prim.
  - destruct (Hround true p) as (m & e & -> & Hb); [lia|].
    exists true, m, e. by apply Prim2SF_SF2Prim.
Qed.

Lemma is_nan_Prim2SF (f : float) : is_nan f = false ↔ Prim2SF f ≠ S754_nan.
Proof.
  unfold is_nan. rewrite FloatAxioms.eqb_spec.
  destruct (Prim2SF f) as [s|s| |s m e]; unfold SFeqb; cbn.
  - done.
  - by destruct s.
  - done.
  - rewrite Z.compare_refl, Pos.compare_cont_refl. by destruct s.
Qed.

Lemma div_not_nan (x y : float) :
  Prim2SF x ≠ S754_nan → (∃ s m e, Prim2SF y = S754_finite s m e) →
  Prim2SF (x / y) ≠ S754_nan.
Proof.
  intros Hx (sy & my & ey & Hy). rewrite div_spec. unfold SF64div, SFdiv. rewrite Hy.
  destruct (Prim2SF x) as [sx|sx| |sx mx ex]; [done..|].
  destruct (SFdiv_core_binary _ _ _ _ _ _) as [[mz ez] lz] eqn:Hcore.
  apply binary_round_aux_not_nan.
  unfold SFdiv_core_binary in Hcore.
  match type of Hcore with
  | (let '(q, r) := Z.div_eucl ?a ?b in _) = _ =>
      assert (0 <= a) as Ha;
      [|pose proof (Z.div_pos a b Ha) as Hq; unfold Z.div in Hq;
        destruct (Z.div_eucl a b) as [q r]; injection Hcore as <- _ _; apply Hq; lia]
  end.
  destruct (_ - _ - _) as [|k|k]; [lia| |lia]. apply Z.shiftl_nonneg. lia.
Qed.

Lemma mul_not_nan (x y : float) :
  Prim2SF x ≠ S754_nan → (∃ s m e, Prim2SF y = S754_finite s m e) →
  Prim2SF (x * y) ≠ S754_nan.
Proof.
  intros Hx (sy & my & ey & Hy). rewrite mul_spec. unfold SF64mul, SFmul. rewrite Hy.
  destruct (Prim2SF x) as [sx|sx| |sx mx ex]; [done..|].
  apply binary_round_aux_not_nan. lia.
Qed.

Lemma add_not_nan (x y : float) :
  Prim2SF x ≠ S754_nan → (∃ s m e, Prim2SF y = S754_finite s m e) →
  Prim2SF (x + y) ≠ S754_nan.
Proof.
  intros Hx (sy & my & ey & Hy). rewrite add_spec. unfold SF64add, SFadd. rewrite Hy.
  destruct (Prim2SF x) as [sx|sx| |sx mx ex]; [done..|].
  apply binary_normalize_not_nan.
Qed.

Lemma sub_not_nan (x y : float) :
  Prim2SF x ≠ S754_nan → (∃ s m e, Prim2SF y = S754_finite s m e) →
  Prim2SF (x - y) ≠ S754_nan.
Proof.
  intros Hx (sy & my & ey & Hy). rewrite sub_spec. unfold SF64sub, SFsub. rewrite Hy.
  destruct (Prim2SF x) as [sx|sx| |sx mx ex]; [done..|].
  apply binary_normalize_not_nan.
Qed.

Lemma rint_not_nan (x : float) : Prim2SF x ≠ S754_nan → Prim2SF (rint x) ≠ S754_nan.
Proof.
  intros Hx. unfold rint.
  assert (Prim2SF (abs x) ≠ S754_nan) as Ha.
  { rewrite abs_spec. by destruct (Prim2SF x). }
  assert (∃ s m e, Prim2SF two52 = S754_finite s m e) as H52 by (by eexists _, _, _).
  assert (Prim2SF (if (abs x <? two52)%float then (abs x + two52 - two52)%float else abs x)
          ≠ S754_nan) as Hr.
  { destruct (abs x <? two52)%float; [|done]. apply sub_not_nan; [|done].
    by apply add_not_nan. }
  destruct (get_sign x); [|done]. rewrite opp_spec.
  by destruct (Prim2SF (if (abs x <? two52)%float then _ else _)).
Qed.

Lemma around2_not_nan (x : float) : Prim2SF x ≠ S754_nan → Prim2SF (around2 x) ≠ S754_nan.
Proof.
  intros Hx. unfold around2.
  assert (∃ s m e, Prim2SF 100 = S754_finite s m e) as H100 by (by eexists _, _, _).
  apply div_not_nan; [|done]. apply rint_not_nan. by apply mul_not_nan.
Qed.

(** With an odometer that is present and not zero the metric is a number,
    whatever the price. *)
Lemma guarded_price_per_1000km_not_nan (p o : Z) :
  o ≠ 0 → in_int64 o = true →
  is_nan (guarded_price_per_1000km (Some p) (Some o)) = false.
Proof.
  intros Ho Hr. cbn [guarded_price_per_1000km]. apply Z.eqb_neq in Ho as Ho'. rewrite Ho'.
  apply is_nan_Prim2SF, around2_not_nan.
  assert (∃ s m e, Prim2SF 1000 = S754_finite s m e) as H1000 by (by eexists _, _, _).
  apply mul_not_nan; [|done]. apply div_not_nan.
  - apply is_nan_Prim2SF, Z2F_not_nan.
  - by apply Prim2SF_Z2F_finite.
Qed.
End metric_facts.

(** ** Values of the int64 range *)

Lemma equivalent_Int64_range (f : float) (z : option Z) :
  equivalent_Int64 f = Ok z → bind_int z = true.
Proof.
  unfold equivalent_Int64. destruct (is_nan f); [by intros [= <-]|].
  destruct (F2Z_exact f) as [y|]; [|done]. destruct (in_int64 y) eqn:Hy; [|done].
  by intros [= <-].
Qed.

Section range_facts.
Variable parse_number : str → option Num.
Variable float_repr : float → str.
Variable int_of_str : str → option Z.
Variable float_of_str : str → option float.

(** Every value of a converted column is of the int64 range. *)
Lemma coerce_Int64_range (s : list Cell) (col : list (option Z)) :
  coerce_Int64 parse_number s = Ok col → Forall (λ z, bind_int z = true) col.
Proof.
  intros [_ [(zs & Hm & ->)|[_ H]]]%coerce_Int64_Ok.
  - apply mapM_Some_1 in Hm. apply Forall_fmap.
    induction Hm as [|n z ns zs Hn _ IH]; constructor; [|done].
    destruct n as [z'|f]; cbn in Hn; [|done]. cbn.
    by destruct (in_int64 z') eqn:Hz; simplify_eq.
  - induction H as [|f z fs zs Hf _ IH]; constructor; [|done].
    by eapply equivalent_Int64_range.
Qed.

Lemma normalized_in_range (df : RawFrame) (out : Frame Norm) (r : Norm) :
  _normalize_columns parse_number float_repr df = Ok out → r ∈ out.*2 →
  bind_int (model_year r) = true ∧ bind_int (price_sek r) = true
  ∧ bind_int (odometer_km r) = true ∧ bind_int (horsepower r) = true.
Proof.
  intros Hn Hr.
  destruct (normalize_columns_columns parse_number float_repr df out Hn)
    as (_ & _ & _ & _ & _ & Hmy & Hp & Ho & Hh).
  apply coerce_Int64_range in Hmy, Hp, Ho, Hh.
  rewrite list.Forall_forall in Hmy. rewrite list.Forall_forall in Hp.
  rewrite list.Forall_forall in Ho. rewrite list.Forall_forall in Hh.
  split_and!; [apply Hmy|apply Hp|apply Ho|apply Hh]; by apply list_elem_of_fmap_2.
Qed.


(** X18: the derived metric of a transformed row is missing exactly when
    the price is missing, the odometer is missing or the odometer is zero;
    in every other row it is a number, and so the stored price_per_1000km
    is NULL in exactly those three cases. *)
Theorem metric_missing_iff (df : RawFrame) (t : Frame Car) :
  transform_cars parse_number float_repr df = Ok t →
  Forall (λ r : Car,
            (is_nan (price_per_1000km r) = true
             ↔ price_sek r = None ∨ odometer_km r = None ∨ odometer_km r = Some 0%Z)
            ∧ ∀ now, db_price_per_1000km (to_db_row now r) = None
                     ↔ price_sek r = None ∨ odometer_km r = None
                       ∨ odometer_km r = Some 0%Z) t.*2.
Proof.
  intros Ht. apply list.Forall_forall. intros r Hr.
  destruct (transform_cars_rows parse_number float_repr df t r Ht Hr)
    as (out & r0 & Hn & Hr0 & -> & _).
  destruct (normalized_in_range df out r0 Hn Hr0) as (_ & _ & Ho & _).
  assert (is_nan (price_per_1000km (with_price_per_1000km r0)) = true
          ↔ price_sek r0 = None ∨ odometer_km r0 = None ∨ odometer_km r0 = Some 0%Z)
    as Hiff.
  { unfold with_price_per_1000km. cbn [price_per_1000km].
    destruct (price_sek r0) as [p|]; [|by split; [left|]].
    destruct (odometer_km r0) as [o|]; [|by split; [right; left|]].
    destruct (Z.eq_dec o 0%Z) as [->|Hne]; [by split; [right; right|]|].
    rewrite guarded_price_per_1000km_not_nan by done.
    split; [done|]. intros [?|[?|?]]; simplify_eq. }
  split; [done|]. intros now. rewrite <- Hiff.
  unfold to_db_row. cbn [db_price_per_1000km].
  by destruct (is_nan (price_per_1000km (with_price_per_1000km r0))).
Qed.

End range_facts.

(** * The --sheet argument and the numbers refused *)

(** ** _sheet_arg *)

Lemma lstrip_fixed (s : str) : (∀ c s', s = c :: s' → isspace c = false) → lstrip s = s.
Proof. destruct s as [|c s]; [done|]. intros H. cbn. by rewrite (H c s). Qed.

Lemma lstrip_idemp (s : str) : lstrip (lstrip s) = lstrip s.
Proof. apply lstrip_fixed. intros c s'. apply lstrip_head. Qed.

Lemma rstrip_idemp (s : str) : rstrip (rstrip s) = rstrip s.
Proof. unfold rstrip. by rewrite reverse_involutive, lstrip_idemp. Qed.

Lemma strip_idemp (s : str) : strip (strip s) = strip s.
Proof.
  unfold strip. rewrite (lstrip_fixed (rstrip (lstrip s))); [apply rstrip_idemp|].
  intros c s' Hs. destruct (rstrip_prefix (lstrip s)) as [q Hq].
  rewrite Hs in Hq. by eapply lstrip_head.
Qed.

Section sheet_arg_facts.
Variable lower : str → str.
Variable isdigit : str → bool.
Variable int_of_str : str → option Z.

(** X20: _sheet_arg looks at the stripped argument only, so whitespace
    around the argument changes nothing; a value it returns as a sheet name
    is the stripped argument (empty, or without surrounding whitespace),
    does not lower-case to "none" and is not all digits; and the only
    exception it raises is the ValueError of int() on text that isdigit()
    accepts. *)
Theorem sheet_arg_reads_stripped_argument :
  (∀ value, _sheet_arg lower isdigit int_of_str (Some (strip value))
            = _sheet_arg lower isdigit int_of_str (Some value))
  ∧ (∀ value name,
       _sheet_arg lower isdigit int_of_str (Some value) = Ok (SheetName name) →
       name = strip value ∧ (name = [] ∨ trimmed name)
       ∧ lower name ≠ lit "none" ∧ isdigit name = false)
  ∧ (∀ value e,
       _sheet_arg lower isdigit int_of_str value = Raise e →
       e = ValueError
       ∧ ∃ v, value = Some v ∧ isdigit (strip v) = true ∧ int_of_str (strip v) = None).
Proof.
  split_and!.
  - intros value. unfold _sheet_arg. by rewrite strip_idemp.
  - intros value name. unfold _sheet_arg.
    destruct (decide (lower (strip value) = lit "none")) as [|Hl]; [done|].
    destruct (isdigit (strip value)) eqn:Hd.
    { by destruct (int_of_str (strip value)). }
    intros [= <-]. split_and!; [done| |done|done].
    destruct (strip value) eqn:Hs; [by left|right]. rewrite <- Hs.
    apply strip_trimmed. by rewrite Hs.
  - intros [v|] e; [|done]. unfold _sheet_arg.
    destruct (decide (lower (strip v) = lit "none")); [done|].
    destruct (isdigit (strip v)) eqn:Hd; [|done].
    destruct (int_of_str (strip v)) eqn:Hi; [done|]. cbn. intros [= <-].
    split; [done|]. by exists v.
Qed.
End sheet_arg_facts.

(** ** Numbers that astype("Int64") refuses *)

Section refused_numbers.
Variable parse_number : str → option Num.
Variable float_repr : float → str.

End refused_numbers.

(** * The properties on the sample data *)

(** The sheet of the tests: 200000 kr over 5000 km is 40000.0 per 1000 km. *)
Example transform_test_sheet :
  transform_cars demo_parse_number demo_float_repr
    {| header := header demo_sheet; body := take 1 (body demo_sheet) |}
  = Ok demo_df.
Proof. vm_compute. reflexivity. Qed.

(** Of two rows with one url the last survives, the row without url goes,
    unreadable text and a zero odometer give missing values. *)
Example transform_demo_sheet :
  transform_cars demo_parse_number demo_float_repr demo_sheet
  = Ok [(0%nat,
         {| norm := {| url := Some (lit "http://test.se/1"); regnr := Some (lit "ABC124");
                       model_year := None; price_sek := Some 100000%Z;
                       odometer_km := Some 0%Z; fuel := None;
                       body_type := Some (lit "Kombi"); horsepower := Some 150%Z |};
            price_per_1000km := nan |})].
Proof. vm_compute. reflexivity. Qed.

(** Two listings with distinct urls are both kept, in order. *)
Example transform_two_sheet :
  transform_cars demo_parse_number demo_float_repr demo_two_sheet = Ok demo_df2.
Proof. vm_compute. reflexivity. Qed.

(** Of a row that is repeated verbatim after another row, the later copy is
    the one kept: the rows A, B, A give B, A. *)
Example transform_repeated_row :
  transform_cars demo_parse_number demo_float_repr demo_repeated_sheet
  = Ok [(0%nat, demo_car2); (1%nat, demo_car)].
Proof. vm_compute. reflexivity. Qed.

(** An infinity among the numbers, and an integer too large for a float,
    abort the transform with an OverflowError. *)
Example infinite_number_raises_OverflowError :
  transform_cars demo_parse_number demo_float_repr df_infinite_price = Raise OverflowError
  ∧ transform_cars demo_parse_number demo_float_repr df_huge_price = Raise OverflowError.
Proof. split; vm_compute; reflexivity. Qed.

(** C1 as stated fails: for 20005 kr at 200000 km the quotient times 1000
    is 100.02500000000001, which round(x, 2) takes to 100.03; the transform
    stores 100.02, because 100.02500000000001 * 100 is 10002.5 in binary64
    and is rounded to the even 10002. *)
Lemma round_differs_from_numpy_round :
  transform_cars demo_parse_number demo_float_repr df_rounding
  = Ok [(0%nat, demo_rounding_car)]
  ∧ price_per_1000km demo_rounding_car = (10002 / 100)%float
  ∧ spec_price_per_1000km (price_sek demo_rounding_car) (odometer_km demo_rounding_car)
    = (10003 / 100)%float
  ∧ ¬ price_per_1000km_as_specified demo_rounding_car.
Proof.
  split_and!; [vm_compute; reflexivity..|]. intros [H _].
  specialize (H 20005%Z 200000%Z eq_refl eq_refl ltac:(done)).
  apply (f_equal (λ x, (x <? 100025 / 1000)%float)) in H. vm_compute in H. discriminate H.
Qed.

(** A failing statement leaves the work of the earlier ones in the open
    transaction; upsert_cars rolls it back. *)
Example executemany_then_rollback :
  executemany (get_conn []) [demo_stored; demo_bad_params]
  = ({| committed := []; pending := Some [demo_stored] |}, Raise IntegrityError)
  ∧ upsert_cars (get_conn []) [demo_stored; demo_bad_params]
    = (get_conn [], Raise IntegrityError).
Proof. split; vm_compute; reflexivity. Qed.

(** A row that is already stored as submitted still counts. *)
Example upsert_cars_counts_unchanged_row :
  upsert_cars (get_conn [demo_stored]) [demo_stored] = (get_conn [demo_stored], Ok 1%nat).
Proof. vm_compute. reflexivity. Qed.

(** C3 as stated fails: both loads of the same table succeed and leave one
    row, but the stored load_ts becomes the second reading of the clock, so
    the stored field values are not unchanged. *)
Lemma reload_changes_load_ts :
  demo_first_load.2 = Ok 1%nat ∧ demo_second_load.2 = Ok 1%nat
  ∧ load_ts <$> demo_first_load.1.1 = [Some (demo_clock 0%nat)]
  ∧ load_ts <$> demo_second_load.1.1 = [Some (demo_clock 1%nat)]
  ∧ demo_second_load.1.1 ≠ demo_first_load.1.1.
Proof.
  split_and!; [reflexivity..|]. intros H.
  apply (f_equal (fmap load_ts)) in H. vm_compute in H. discriminate H.
Qed.

Lemma reload_keeps_all_but_load_ts_witness :
  ∃ db2,
    load_cars demo_float_repr demo_int_of_str demo_float_of_str (itertuples demo_df)
      demo_first_load.1.1 demo_first_load.1.2
    = (db2, λ k, demo_first_load.1.2 (S k), Ok 1%nat)
    ∧ db2 = restamp (demo_first_load.1.2 0%nat) ((λ r : Car, url r) <$> demo_df.*2)
              demo_first_load.1.1
    ∧ length db2 = length demo_first_load.1.1
    ∧ forget_load_ts <$> db2 = forget_load_ts <$> demo_first_load.1.1
    ∧ (demo_first_load.1.2 0%nat = demo_clock 0%nat → db2 = demo_first_load.1.1).
Proof.
  apply (reload_keeps_all_but_load_ts demo_float_repr demo_int_of_str demo_float_of_str
           demo_df [] demo_first_load.1.1 demo_clock demo_first_load.1.2 1).
  - apply stored_ok_nil.
  - repeat constructor. by eexists.
  - apply NoDup_singleton.
  - reflexivity.
Defined.

Lemma upsert_conflict_overwrites_witness :
  [demo_stored] !! 0%nat = Some demo_stored ∧ db_url demo_stored = db_url demo_params
  ∧ ∃ new, [demo_params] = <[0%nat := new]> [demo_stored] ∧ [demo_params] !! 0%nat = Some new
      ∧ db_url new = db_url demo_stored
      ∧ db_regnr new = db_regnr demo_params
      ∧ db_model_year new = db_model_year demo_params
      ∧ db_price_sek new = db_price_sek demo_params
      ∧ db_odometer_km new = db_odometer_km demo_params
      ∧ db_fuel new = db_fuel demo_params
      ∧ db_body_type new = db_body_type demo_params
      ∧ db_horsepower new = db_horsepower demo_params
      ∧ db_price_per_1000km new = nan_as_null (db_price_per_1000km demo_params)
      ∧ load_ts new = load_ts demo_params.
Proof.
  apply (upsert_conflict_overwrites [demo_stored] [demo_params] demo_params demo_stored 0);
    reflexivity.
Defined.

Lemma one_load_ts_per_call_witness :
  (λ n, demo_clock (S n)) = (λ n, demo_clock (S n))
  ∧ length [to_db_row (demo_clock 0%nat) demo_car; to_db_row (demo_clock 0%nat) demo_car2]
    = length (itertuples demo_df2)
  ∧ Forall (λ row, load_ts row = Some (demo_clock 0%nat))
      [to_db_row (demo_clock 0%nat) demo_car; to_db_row (demo_clock 0%nat) demo_car2].
Proof.
  apply (one_load_ts_per_call demo_float_repr demo_int_of_str demo_float_of_str
           (itertuples demo_df2) demo_clock).
  reflexivity.
Defined.



Lemma safe_numbers_survive_witness :
  ∃ out t,
    _normalize_columns demo_parse_number demo_float_repr demo_sheet = Ok out
    ∧ transform_cars demo_parse_number demo_float_repr demo_sheet = Ok t
    ∧ model_year <$> out.*2
      = numeric_value demo_parse_number <$> _safe_get demo_sheet (header_of Fmodel_year)
    ∧ price_sek <$> out.*2
      = numeric_value demo_parse_number <$> _safe_get demo_sheet (header_of Fprice_sek)
    ∧ odometer_km <$> out.*2
      = numeric_value demo_parse_number <$> _safe_get demo_sheet (header_of Fodometer_km)
    ∧ horsepower <$> out.*2
      = numeric_value demo_parse_number <$> _safe_get demo_sheet (header_of Fhorsepower).
Proof.
  apply (safe_numbers_survive demo_parse_number demo_float_repr demo_sheet).
  intros f Hf. unfold _NUMERIC_COLS in Hf. rewrite !elem_of_cons, elem_of_nil in Hf.
  destruct Hf as [->|[->|[->|[->|[]]]]];
    match goal with
    | |- Forall _ ?l => let l' := eval vm_compute in l in change l with l'
    end;
    repeat (constructor; [first [by left | split; vm_compute; reflexivity]|]); constructor.
Defined.

Lemma transformed_text_is_trimmed_witness :
  Forall (λ r : Car, is_Some (url r) ∧ text_fields_trimmed r) demo_transformed.*2.
Proof.
  apply (transformed_text_is_trimmed demo_parse_number demo_float_repr demo_sheet).
  vm_compute. reflexivity.
Defined.

Lemma absent_column_is_missing_witness :
  Forall (missing_in Fprice_sek)
    [ {| url := Some (lit "http://test.se/1"); regnr := None; model_year := None;
         price_sek := None; odometer_km := None; fuel := None; body_type := None;
         horsepower := None |} ].
Proof.
  apply (absent_column_is_missing demo_parse_number demo_float_repr demo_url_sheet
           [(0%nat, _)] Fprice_sek).
  - apply (bool_decide_eq_false_1 _). vm_compute. reflexivity.
  - vm_compute. reflexivity.
Defined.

Lemma transform_cars_keeps_distinct_rows_witness :
  transform_cars demo_parse_number demo_float_repr demo_two_sheet
  = Ok ((λ r, (r.1, with_price_per_1000km r.2))
          <$> [(0%nat, norm demo_car); (1%nat, norm demo_car2)]).
Proof.
  apply (transform_cars_keeps_distinct_rows demo_parse_number demo_float_repr
           demo_two_sheet [(0%nat, norm demo_car); (1%nat, norm demo_car2)]).
  - apply (bool_decide_unpack _). vm_compute. reflexivity.
  - apply (bool_decide_unpack _). vm_compute. reflexivity.
  - vm_compute. reflexivity.
Defined.

Lemma upsert_cars_keeps_other_rows_witness :
  let conn' := (upsert_cars (get_conn [demo_no_url; demo_stored]) [demo_params]).1 in
  db_url <$> view (get_conn [demo_no_url; demo_stored]) `prefix_of` db_url <$> view conn'
  ∧ (length (view (get_conn [demo_no_url; demo_stored])) <= length (view conn'))%nat
  ∧ ∀ i x, view (get_conn [demo_no_url; demo_stored]) !! i = Some x →
           (is_Some (db_url x) → db_url x ∉ db_url <$> [demo_params]) →
           view conn' !! i = Some x.
Proof.
  apply (upsert_cars_keeps_other_rows (get_conn [demo_no_url; demo_stored]) _
           [demo_params] 1).
  vm_compute. reflexivity.
Defined.

Lemma upsert_cars_last_row_wins_witness :
  bound demo_params ∈ committed (upsert_cars (get_conn []) [demo_stored; demo_params]).1
  ∧ pending (upsert_cars (get_conn []) [demo_stored; demo_params]).1 = None.
Proof.
  apply (upsert_cars_last_row_wins (get_conn []) _ [demo_stored] [] demo_params 2).
  - vm_compute. reflexivity.
  - intros _. apply not_elem_of_nil.
Defined.

Lemma upsert_new_url_appends_witness :
  [demo_stored; demo_no_url] = [demo_stored] ++ [bound demo_no_url]
  ∧ [demo_stored; demo_no_url] !! length [demo_stored] = Some (bound demo_no_url)
  ∧ ∀ i x, [demo_stored] !! i = Some x → [demo_stored; demo_no_url] !! i = Some x.
Proof.
  apply (upsert_new_url_appends [demo_stored] [demo_stored; demo_no_url] demo_no_url).
  - intros [? [=]].
  - vm_compute. reflexivity.
Defined.

Lemma stored_regnr_refused_for_other_url_witness :
  UPSERT_SQL [demo_stored] demo_other_listing
  = match bind_parameters demo_other_listing with
    | Ok _ => Raise IntegrityError
    | Raise e => Raise e
    end
  ∧ ∃ e, upsert_cars (get_conn [demo_stored]) [demo_other_listing]
         = (get_conn [demo_stored], Raise e).
Proof.
  apply (stored_regnr_refused_for_other_url [demo_stored] demo_other_listing demo_stored).
  - by left.
  - by eexists.
  - reflexivity.
  - vm_compute. discriminate.
Defined.

Lemma null_url_rows_accumulate_witness :
  [demo_no_url] = [] ++ [bound demo_no_url]
  ∧ (db_regnr demo_no_url = None →
     UPSERT_SQL [demo_no_url] demo_no_url = Ok ([] ++ [bound demo_no_url; bound demo_no_url])).
Proof.
  apply (null_url_rows_accumulate [] [demo_no_url] demo_no_url).
  - reflexivity.
  - vm_compute. reflexivity.
Defined.

Lemma upsert_cars_split_batch_witness :
  match upsert_cars (get_conn [demo_stored]) [demo_params] with
  | (c2, Ok n2) =>
      upsert_cars (get_conn []) ([demo_stored] ++ [demo_params]) = (c2, Ok (1 + n2)%nat)
  | (c2, Raise e) =>
      upsert_cars (get_conn []) ([demo_stored] ++ [demo_params]) = (get_conn [], Raise e)
      ∧ committed c2 = view (get_conn [demo_stored])
  end.
Proof.
  apply (upsert_cars_split_batch (get_conn []) (get_conn [demo_stored])
           [demo_stored] [demo_params] 1).
  - reflexivity.
  - vm_compute. reflexivity.
Defined.

Lemma load_cars_keeps_constraints_witness :
  stored_ok [demo_stored]
  ∧ stored_ok (load_cars demo_float_repr demo_int_of_str demo_float_of_str
                 (itertuples demo_df2) [demo_stored] (λ n, demo_clock (S n))).1.1.
Proof.
  assert (stored_ok [demo_stored]) as Hdb.
  { apply (apply_all_stored_ok [demo_stored] [] [demo_stored]);
      [apply stored_ok_nil|vm_compute; reflexivity]. }
  split; [done|].
  by apply (load_cars_keeps_constraints demo_float_repr demo_int_of_str demo_float_of_str
              (itertuples demo_df2) [demo_stored] (λ n, demo_clock (S n))).
Defined.

Lemma run_etl_twice_witness :
  ∃ db2,
    run_etl demo_parse_number demo_float_repr demo_int_of_str demo_float_of_str
      demo_workbook demo_run.1.1 demo_run.1.2
    = (db2, λ k, demo_run.1.2 (S k), Ok 1%nat)
    ∧ length db2 = length demo_run.1.1
    ∧ forget_load_ts <$> db2 = forget_load_ts <$> demo_run.1.1
    ∧ ∀ i x, demo_run.1.1 !! i = Some x →
             ∃ y, db2 !! i = Some y
                  ∧ (y = x ∨ y = set_load_ts (Some (demo_run.1.2 0%nat)) x).
Proof.
  apply (run_etl_twice demo_parse_number demo_float_repr demo_int_of_str demo_float_of_str
           demo_workbook [] demo_run.1.1 demo_clock demo_run.1.2 1).
  - apply stored_ok_nil.
  - reflexivity.
Defined.

Lemma metric_missing_iff_witness :
  Forall (λ r : Car,
            (is_nan (price_per_1000km r) = true
             ↔ price_sek r = None ∨ odometer_km r = None ∨ odometer_km r = Some 0%Z)
            ∧ ∀ now, db_price_per_1000km (to_db_row now r) = None
                     ↔ price_sek r = None ∨ odometer_km r = None
                       ∨ odometer_km r = Some 0%Z) demo_transformed.*2.
Proof.
  apply (metric_missing_iff demo_parse_number demo_float_repr demo_sheet).
  vm_compute. reflexivity.
Defined.

